(** * CO2LayersEscape: layered atmosphere and radiative transfer

    A shallow embedding of the repository's layer builder ([layers.js]) and
    of the satellite-observation notebook (molecular populations,
    de-excitation probabilities, radiative transfer loop, photon flux),
    together with the properties its specification states about them.

    Numbers.  The JavaScript and Python programs compute with IEEE-754
    doubles.  Unless stated otherwise a double is idealised as a real number
    ([R]): every arithmetic operation is the exact one, [Math.exp] is the
    real exponential, [np.sqrt] the real square root, and the statements are
    about the programs in exact arithmetic.  Two cells are modelled with
    their binary64 behaviour, because what the specification says about
    them depends on it: the Boltzmann factor, whose exponential underflows
    to 0 and rounds to 1 at the ends of the range ([Notebook.np_exp]), and
    the de-excitation probabilities, whose sum is exact only up to rounding
    ([Binary64] on primitive floats, [Rounding] for every rounding function
    with the properties of round-to-nearest). *)

From Stdlib Require Import Reals Lra Lia List ZArith Sorting.Sorted Permutation.
From Stdlib Require PrimFloat.
Import ListNotations.

Open Scope R_scope.

(** ** Generic list and real-number helpers *)

(** Sum of a list of reals, left to right as the programs accumulate it. *)
Definition Rsum (l : list R) : R := fold_left Rplus l 0.

(** Smallest integer not below [x]. *)
Definition Rceil (x : R) : Z := (1 - up (- x))%Z.

(** ** The layer builder ([layers.js]) *)

Module Layers.

(** [calculateNextLayerThickness(h2, initialThickness, H)]. *)
Definition calculateNextLayerThickness (h2 initialThickness H : R) : R :=
  initialThickness * exp (h2 / H).

(** The three script-level variables the loop mutates. *)
Record State : Type := mkState {
  layerStartPoints : list R;
  layerThicknesses : list R;
  accumulatedHeight : R
}.

Section Builder.

(** The script's constants: scale height, first layer thickness and
    maximum accumulated height (12000, 100 and 12000 in the source). *)
Variables (H initialThickness maxAltitude : R).

(** State before the loop: one layer, starting at 0. *)
Definition initial : State :=
  mkState [0] [initialThickness] initialThickness.

(** [arr[arr.length - 1]]; both arrays are never empty. *)
Definition lastOf (arr : list R) : R := last arr 0.

(** Starting altitude of the next layer, [h2] in the loop body. *)
Definition nextStart (st : State) : R :=
  lastOf (layerStartPoints st) + lastOf (layerThicknesses st).

(** The thickness pushed by one iteration: the exponential law, replaced
    by the remaining height when it would exceed [maxAltitude]. *)
Definition clip (acc nextThickness : R) : R :=
  if Rgt_dec (acc + nextThickness) maxAltitude
  then maxAltitude - acc
  else nextThickness.

(** One execution of the body of the [while] loop. *)
Definition loop_body (st : State) : State :=
  let h2 := nextStart st in
  let nextThickness := calculateNextLayerThickness h2 initialThickness H in
  let nextThickness := clip (accumulatedHeight st) nextThickness in
  mkState (layerStartPoints st ++ [h2])
          (layerThicknesses st ++ [nextThickness])
          (accumulatedHeight st + nextThickness).

(** [while (accumulatedHeight < maxAltitude) { ... }], with fuel: [None]
    when the fuel runs out before the guard fails. *)
Fixpoint while_loop (fuel : nat) (st : State) : option State :=
  match fuel with
  | O => None
  | S fuel' =>
      if Rlt_dec (accumulatedHeight st) maxAltitude
      then while_loop fuel' (loop_body st)
      else Some st
  end.

(** The whole script up to the printing. *)
Definition build (fuel : nat) : option State := while_loop fuel initial.

(** States the loop can be in when its guard is evaluated. *)
Inductive reachable : State -> Prop :=
| reach_initial : reachable initial
| reach_step st :
    reachable st -> accumulatedHeight st < maxAltitude ->
    reachable (loop_body st).

(** [startAltitude[i+1] = startAltitude[i] + thickness[i]]. *)
Definition contiguous (starts thicks : list R) : Prop :=
  forall i, (S i < length starts)%nat ->
    nth (S i) starts 0 = nth i starts 0 + nth i thicks 0.

(** What every reachable state satisfies, whatever the constants. *)
Record shape (st : State) : Prop := mkShape {
  shape_len : length (layerStartPoints st) = length (layerThicknesses st);
  shape_nonempty : layerStartPoints st <> [];
  shape_first : nth 0 (layerStartPoints st) 0 = 0;
  shape_next : nextStart st = accumulatedHeight st;
  shape_sum : Rsum (layerThicknesses st) = accumulatedHeight st;
  shape_contiguous : contiguous (layerStartPoints st) (layerThicknesses st)
}.

End Builder.

End Layers.


(** ** The satellite-observation notebook *)

Module Notebook.

(** *** Constants and parameters (first code cell) *)

Definition h : R := 6.62607015e-34.
Definition k_B : R := 1.380649e-23.
Definition c : R := 2.99792458e8.
Definition N_A : R := 6.02214076e23.

Definition M_CO2 : R := 44.01e-3.
Definition m_CO2 : R := M_CO2 / N_A.

Definition wavelength : R := 15e-6.
Definition frequency : R := c / wavelength.
Definition energy_transition : R := h * frequency.

Definition A21 : R := 1.0.
Definition sigma_collision : R := 3e-19.

(** The partition function, [Z = 1] in the source. *)
Definition Z_partition : R := 1.

Definition E_lower : R := 0.
Definition E_upper : R := energy_transition.

Definition sigma_nu : R := 1e-22.

(** *** The layer table *)

(** A row of the table the notebook starts from. *)
Record Profile : Type := mkProfile {
  profile_Layer : Z;
  profile_Altitude : R;
  profile_Temperature : R;
  profile_Pressure : R;
  profile_CO2_Mixing_Ratio : R
}.

(** A row of [layers] once every derived column has been added. *)
Record Row : Type := mkRow {
  Layer : Z;
  Altitude : R;
  Temperature : R;
  Pressure : R;
  CO2_Mixing_Ratio : R;
  Number_Density : R;
  CO2_Number_Density : R;
  Boltzmann_Factor : R;
  N_upper : R;
  N_lower : R;
  Average_Speed : R;
  Collisional_Rate : R;
  Radiative_Rate : R;
  Total_Deexcitation_Rate : R;
  P_radiative : R;
  P_collisional : R;
  Kappa : R;
  Emission_Coefficient : R
}.

(** *** Column formulas (populations, probabilities, coefficients) *)

Definition number_density (pressure temperature : R) : R :=
  pressure / (k_B * temperature).

Definition co2_number_density (n mixing_ratio : R) : R := n * mixing_ratio.

(** [np.exp] on a double.  The result is the real exponential except at
    the two ends of the binary64 range, which decide what the Boltzmann
    factor can be: a value below [2^-1075], half the smallest positive
    double, comes back as [0.0], and a value above [1 - 2^-54], nearer to 1
    than to the double just below 1, comes back as [1.0].  Rounding inside
    the range is left out. *)
Definition np_exp (x : R) : R :=
  let y := exp x in
  if Rlt_dec y (/ 2 ^ 1075) then 0
  else if Rle_dec y 1 then (if Rlt_dec (1 - / 2 ^ 54) y then 1 else y)
  else y.

Definition boltzmann_factor (temperature : R) : R :=
  np_exp (- E_upper / (k_B * temperature)).

Definition n_upper (n_co2 bf : R) : R := n_co2 * bf / Z_partition.

Definition n_lower (n_co2 bf : R) : R := n_co2 * (1 - bf) / Z_partition.

Definition average_speed (temperature : R) : R :=
  sqrt ((8 * k_B * temperature) / (PI * m_CO2)).

Definition collisional_rate (n speed : R) : R := n * sigma_collision * speed.

Definition total_deexcitation_rate (collisional radiative : R) : R :=
  collisional + radiative.

(** The two probabilities as exact quotients, the values the table carries
    in this idealised pipeline.  What the same cell computes in doubles is
    modelled in [Binary64] and [Rounding] below. *)
Definition p_radiative (radiative collisional : R) : R :=
  radiative / total_deexcitation_rate collisional radiative.

Definition p_collisional (radiative collisional : R) : R :=
  collisional / total_deexcitation_rate collisional radiative.

Definition kappa (nl nu : R) : R := (nl - nu) * sigma_nu.

(** Planck spectral radiance at the band frequency, as the notebook writes
    it both for the emission coefficient and inside the transfer loop. *)
Definition planck (temperature : R) : R :=
  (2 * h * frequency ^ 3) / c ^ 2
  / (exp (h * frequency / (k_B * temperature)) - 1).

Definition emission_coefficient (kap p_rad temperature : R) : R :=
  kap * p_rad * (2 * h * frequency ^ 3) / c ^ 2
  / (exp (h * frequency / (k_B * temperature)) - 1).

(** All derived columns of one row, in the order the cells compute them. *)
Definition derive (p : Profile) : Row :=
  let T := profile_Temperature p in
  let n := number_density (profile_Pressure p) T in
  let n_co2 := co2_number_density n (profile_CO2_Mixing_Ratio p) in
  let bf := boltzmann_factor T in
  let nu := n_upper n_co2 bf in
  let nl := n_lower n_co2 bf in
  let v := average_speed T in
  let coll := collisional_rate n v in
  let rad := A21 in
  let p_rad := p_radiative rad coll in
  let kap := kappa nl nu in
  mkRow (profile_Layer p) (profile_Altitude p) T (profile_Pressure p)
        (profile_CO2_Mixing_Ratio p) n n_co2 bf nu nl v coll rad
        (total_deexcitation_rate coll rad) p_rad (p_collisional rad coll)
        kap (emission_coefficient kap p_rad T).

(** The table of the notebook. *)
Definition layers_profile : list Profile :=
  [ mkProfile 1 0 288.15 101325 400e-6;
    mkProfile 2 5e3 255.65 54019 400e-6;
    mkProfile 3 10e3 223.15 22632 400e-6;
    mkProfile 4 15e3 216.65 12036 400e-6;
    mkProfile 5 20e3 216.65 5474 400e-6 ].

Definition layers : list Row := map derive layers_profile.

(** *** Radiative transfer loop *)

(** [sort_values(by='Altitude', ascending=False)]: rows by decreasing
    altitude.  An insertion sort that keeps rows of equal altitude in their
    original order; the results below use only that the outcome is sorted
    and is a permutation of the table. *)
Fixpoint insert_desc (x : Row) (rows : list Row) : list Row :=
  match rows with
  | [] => [x]
  | y :: rest =>
      if Rlt_dec (Altitude x) (Altitude y)
      then y :: insert_desc x rest
      else x :: y :: rest
  end.

Definition sort_values_desc (rows : list Row) : list Row :=
  fold_right insert_desc [] rows.

(** One dictionary appended to [layer_contributions]. *)
Record Contribution : Type := mkContribution {
  contrib_Layer : Z;
  contrib_Altitude : R;
  Delta_Tau : R;
  Tau_Nu : R;
  B_Nu : R;
  dI_Nu : R;
  I_Nu : R
}.

(** The variables the loop updates. *)
Record Transfer : Type := mkTransfer {
  I_nu : R;
  tau_nu : R;
  layer_contributions : list Contribution
}.

(** [layers_sorted.loc[i]]; the loop only reads rows that exist. *)
Definition blank_row : Row :=
  mkRow 0 0 0 0 0 0 0 0 0 0 0 0 0 0 0 0 0 0.

Definition loc (layers_sorted : list Row) (i : nat) : Row :=
  nth i layers_sorted blank_row.

(** The altitude the atmosphere is assumed to extend to. *)
Definition atmosphere_top : R := 100e3.

(** [delta_z] of iteration [i]. *)
Definition delta_z (layers_sorted : list Row) (i : nat) : R :=
  if (0 <? i)%nat
  then Altitude (loc layers_sorted (i - 1)) - Altitude (loc layers_sorted i)
  else atmosphere_top - Altitude (loc layers_sorted i).

(** Body of [for i in range(len(layers_sorted))]. *)
Definition loop_body (layers_sorted : list Row) (st : Transfer) (i : nat)
  : Transfer :=
  let layer := loc layers_sorted i in
  let ds := delta_z layers_sorted i / cos 0 in
  let delta_tau := Kappa layer * ds in
  let tau := tau_nu st + delta_tau in
  let b_nu := planck (Temperature layer) in
  let dI := b_nu * (1 - exp (- delta_tau)) * exp (- tau) in
  let dI := dI * P_radiative layer in
  let I := I_nu st + dI in
  mkTransfer I tau
    (layer_contributions st ++
     [mkContribution (Layer layer) (Altitude layer) delta_tau tau b_nu dI I]).

(** State before the loop: [I_nu = 0], [tau_nu = 0], no contribution. *)
Definition transfer_init : Transfer := mkTransfer 0 0 [].

(** The loop over an already sorted table. *)
Definition integrate (layers_sorted : list Row) : Transfer :=
  fold_left (loop_body layers_sorted) (seq 0 (length layers_sorted))
            transfer_init.

(** The whole cell: sort the table, then run the loop. *)
Definition radiative_transfer (table : list Row) : Transfer :=
  integrate (sort_values_desc table).

(** *** Photon flux *)

(** The division of the last cell.  A zero divisor is an error there
    ([ZeroDivisionError] on Python numbers, a warning with an infinity or a
    NaN on numpy scalars): [None]. *)
Definition checked_div (x y : R) : option R :=
  if Req_dec_T y 0 then None else Some (x / y).

(** The last cell, with the band frequency, the bandwidth and the solid
    angle as parameters. *)
Definition photon_flux_of (I_nu_up freq delta_frequency solid_angle : R)
  : option R :=
  match checked_div I_nu_up (h * freq) with
  | Some photon_flux_density =>
      Some (photon_flux_density * delta_frequency * solid_angle)
  | None => None
  end.

Definition delta_frequency : R := frequency * 0.01.
Definition solid_angle : R := 2 * PI.

(** The last cell as written: 1% bandwidth, upward hemisphere. *)
Definition photon_flux (I_nu_up : R) : option R :=
  photon_flux_of I_nu_up frequency delta_frequency solid_angle.

(** *** Reading of the transfer loop as a top-down stack of slabs *)

(** Vertical extent of each layer of a stack listed from the top down: a
    layer reaches from its own altitude up to the base of the layer above
    it, the topmost one up to [ceiling].  This is the thickness for which
    consecutive layers are contiguous. *)
Fixpoint layer_thickness (ceiling : R) (stack : list Row) : list R :=
  match stack with
  | [] => []
  | layer :: below =>
      (ceiling - Altitude layer) :: layer_thickness (Altitude layer) below
  end.

(** Rows listed by non-increasing altitude. *)
Definition top_down (stack : list Row) : Prop :=
  Sorted (fun upper lower => Altitude lower <= Altitude upper) stack.

(** Running value of a column of the trace just before entry [i]: the
    column of entry [i - 1], or [init] when there is none. *)
Definition before (init : R) (col : Contribution -> R)
  (trace : list Contribution) (i : nat) : R :=
  last (map col (firstn i trace)) init.

(** The dictionary one iteration appends, as a function of what the body
    reads: the altitude [ceiling] the layer reaches up to, the running
    [tau_nu] and [I_nu], and the row. *)
Definition entry (ceiling tau I : R) (layer : Row) : Contribution :=
  let ds := (ceiling - Altitude layer) / cos 0 in
  let delta_tau := Kappa layer * ds in
  let tau' := tau + delta_tau in
  let b_nu := planck (Temperature layer) in
  let dI := b_nu * (1 - exp (- delta_tau)) * exp (- tau') in
  let dI := dI * P_radiative layer in
  mkContribution (Layer layer) (Altitude layer) delta_tau tau' b_nu dI (I + dI).

(** The entries appended for a stack, by recursion on the stack; shown
    below to be what the indexed loop appends. *)
Fixpoint slab_trace (ceiling tau I : R) (stack : list Row)
  : list Contribution :=
  match stack with
  | [] => []
  | layer :: below =>
      let e := entry ceiling tau I layer in
      e :: slab_trace (Altitude layer) (Tau_Nu e) (I_Nu e) below
  end.

(** Altitude the next layer reaches up to once the rows [done] have been
    processed: what [delta_z] subtracts from. *)
Definition ceiling_above (done : list Row) : R :=
  match done with
  | [] => atmosphere_top
  | _ :: _ => Altitude (last done blank_row)
  end.

(** *** Sample tables *)

(** A row with only the columns the transfer loop reads filled in. *)
Definition sample_row (layer : Z) (altitude temperature kap p_rad : R) : Row :=
  mkRow layer altitude temperature 0 0 0 0 0 0 0 0 0 0 0 p_rad (1 - p_rad)
        kap 0.

(** Two layers, at 0 and 5 km. *)
Definition sample_table : list Row :=
  [ sample_row 1 0 288.15 1e-4 0.5; sample_row 2 5e3 255.65 1e-4 0.5 ].

(** Two layers without absorption. *)
Definition transparent_table : list Row :=
  [ sample_row 1 0 288.15 0 0.5; sample_row 2 5e3 255.65 0 0.5 ].

(** One layer lying above the altitude the loop takes as the top of the
    atmosphere. *)
Definition high_table : list Row := [ sample_row 1 200e3 250 1e-5 1 ].

End Notebook.


(** ** Random-walk escape time ([timeToEscape.js]) *)

Module Escape.

(** [Math.pow(distanceToEscape / meanFreePath, 2)]. *)
Definition numberOfSteps (distanceToEscape meanFreePath : R) : R :=
  (distanceToEscape / meanFreePath) ^ 2.

(** [numberOfSteps * reEmissionTime]. *)
Definition totalTime (distanceToEscape meanFreePath reEmissionTime : R) : R :=
  numberOfSteps distanceToEscape meanFreePath * reEmissionTime.

(** The script's constants. *)
Definition meanFreePath : R := 2.
Definition distanceToEscape : R := 100.
Definition reEmissionTime : R := 10 * powerRZ 10 (-5).

End Escape.

(** ** Photon mean free path at sea level (JavaScript version) *)

Module SeaLevel.

(** [n0 * (ppm_CO2 / Math.pow(10, 6))]. *)
Definition n_CO2 (n0 ppm_CO2 : R) : R := n0 * (ppm_CO2 / 10 ^ 6).

(** [1 / (n_CO2 * sigma)]. *)
Definition meanFreePath (n0 ppm_CO2 sigma : R) : R :=
  1 / (n_CO2 n0 ppm_CO2 * sigma).

End SeaLevel.

(** ** Molecular collisions (mean free path, thermal speed, collision rate) *)

Module Collisions.

(** [Math.PI]. *)
Definition pi : R := PI.

(** [meanFreePath(k_B, T, d, P)]. *)
Definition meanFreePath (k_B T d P : R) : R :=
  (k_B * T) / (sqrt 2 * pi * d ^ 2 * P).

(** [thermalSpeed(k_B, T, m)]. *)
Definition thermalSpeed (k_B T m : R) : R :=
  sqrt ((8 * k_B * T) / (pi * m)).

(** [numberOfCollisions(v_avg, lambda)]. *)
Definition numberOfCollisions (v_avg lambda : R) : R := v_avg / lambda.

(** The script: collisions per second from the two functions above. *)
Definition collisionsPerSecond (k_B T d P m : R) : R :=
  numberOfCollisions (thermalSpeed k_B T m) (meanFreePath k_B T d P).

End Collisions.

(** ** Photon mean free path from the ideal-gas density (notebook cell) *)

Module Absorption.

(** The cell uses the same value of [k_B] as the satellite-observation
    notebook. *)
Definition k_B : R := Notebook.k_B.

(** Step 1: [P / (k_B * T)]. *)
Definition n_air (P T : R) : R := P / (k_B * T).

(** Step 2: [CO2_mole_fraction * n_air]. *)
Definition n_CO2 (CO2_mole_fraction P T : R) : R :=
  CO2_mole_fraction * n_air P T.

(** [1 / (n_CO2 * sigma)]. *)
Definition photon_mfp (CO2_mole_fraction P T sigma : R) : R :=
  1 / (n_CO2 CO2_mole_fraction P T * sigma).

End Absorption.

(** ** The de-excitation probabilities in binary64 *)

(** The cell on primitive floats: every [+] and [/] is the IEEE-754
    binary64 operation, as numpy performs it on a float64 column. *)
Module Binary64.

Import PrimFloat.

Definition total_deexcitation_rate (collisional radiative : float) : float :=
  (collisional + radiative)%float.

Definition p_radiative (radiative collisional : float) : float :=
  (radiative / total_deexcitation_rate collisional radiative)%float.

Definition p_collisional (radiative collisional : float) : float :=
  (collisional / total_deexcitation_rate collisional radiative)%float.

(** [P_radiative + P_collisional], the sum a test compares with 1. *)
Definition probability_sum (radiative collisional : float) : float :=
  (p_radiative radiative collisional
   + p_collisional radiative collisional)%float.

(** [A21 = 1.0]. *)
Definition A21 : float := 1%float.

(** A collisional rate, 0.34864195214249605 in decimal. *)
Definition slow_collisions : float := 0x1.65026559dccaep-2%float.

(** A rate so large that the sum of two of them overflows, [2^1023]. *)
Definition huge_rate : float := 0x1p+1023%float.

End Binary64.

(** The same cell for any rounding function [rnd] from the exact result of
    an operation to the double that is stored.  [binary64_rounding] lists
    the properties of IEEE-754 round-to-nearest on non-negative results
    below the overflow threshold that the statements use. *)
Module Rounding.

(** Unit roundoff [2^-53], half the smallest positive double [2^-1075],
    and the largest double. *)
Definition u : R := / 2 ^ 53.
Definition eta : R := / 2 ^ 1075.
Definition max_double : R := (2 - / 2 ^ 52) * 2 ^ 1023.

Record binary64_rounding (rnd : R -> R) : Prop := mkRounding {
  rnd_monotone : forall x y, x <= y -> rnd x <= rnd y;
  rnd_zero : rnd 0 = 0;
  rnd_one : rnd 1 = 1;
  rnd_idempotent : forall y, rnd (rnd y) = rnd y;
  rnd_error :
    forall y, 0 <= y <= max_double -> Rabs (rnd y - y) <= u * y + eta;
  rnd_sum_error :
    forall a b, 0 <= a -> 0 <= b -> rnd a = a -> rnd b = b ->
      a + b <= max_double ->
      Rabs (rnd (a + b) - (a + b)) <= u * (a + b)
}.

Section Cell.

Variable rnd : R -> R.

Definition total_deexcitation_rate (collisional radiative : R) : R :=
  rnd (collisional + radiative).

Definition p_radiative (radiative collisional : R) : R :=
  rnd (radiative / total_deexcitation_rate collisional radiative).

Definition p_collisional (radiative collisional : R) : R :=
  rnd (collisional / total_deexcitation_rate collisional radiative).

Definition probability_sum (radiative collisional : R) : R :=
  rnd (p_radiative radiative collisional
       + p_collisional radiative collisional).

End Cell.

(** A rounding function that has these properties and really rounds: to
    the nearest multiple of [2^-1080], halves upward.  It is not the
    binary64 rounding; it serves to check the statements on results that
    are not representable, such as 1/3. *)
Definition fixed_point (y : R) : R :=
  IZR (up (y * 2 ^ 1080 - 1 / 2)) / 2 ^ 1080.

End Rounding.

(** ** Further notions on tables and stacks *)

(** Rows listed by strictly decreasing altitude. *)
Definition strictly_top_down (stack : list Notebook.Row) : Prop :=
  StronglySorted
    (fun upper lower => Notebook.Altitude lower < Notebook.Altitude upper)
    stack.

(** Altitude of the lowest row of a top-down stack. *)
Definition lowest_altitude (stack : list Notebook.Row) : R :=
  Notebook.Altitude (last stack Notebook.blank_row).

(** The exponential law of the layer builder at a start altitude. *)
Definition law (H t0 start : R) : R :=
  Layers.calculateNextLayerThickness start t0 H.

(** What the thicknesses of a state of the layer builder satisfy: every
    layer but the last one has the thickness of the exponential law at its
    start point, the last one has it too as long as the guard of the loop
    holds, and no layer is thicker than the law. *)
Record lawful (H t0 maxAltitude : R) (st : Layers.State) : Prop := mkLawful {
  lawful_inner :
    forall i, (S i < length (Layers.layerThicknesses st))%nat ->
      nth i (Layers.layerThicknesses st) 0
      = law H t0 (nth i (Layers.layerStartPoints st) 0);
  lawful_open :
    Layers.accumulatedHeight st < maxAltitude ->
    forall i, (i < length (Layers.layerThicknesses st))%nat ->
      nth i (Layers.layerThicknesses st) 0
      = law H t0 (nth i (Layers.layerStartPoints st) 0);
  lawful_le :
    forall i, (i < length (Layers.layerThicknesses st))%nat ->
      nth i (Layers.layerThicknesses st) 0
      <= law H t0 (nth i (Layers.layerStartPoints st) 0)
}.

(** Two rows that agree on the five columns the transfer loop reads. *)
Definition same_inputs (r r' : Notebook.Row) : Prop :=
  Notebook.Layer r = Notebook.Layer r'
  /\ Notebook.Altitude r = Notebook.Altitude r'
  /\ Notebook.Temperature r = Notebook.Temperature r'
  /\ Notebook.Kappa r = Notebook.Kappa r'
  /\ Notebook.P_radiative r = Notebook.P_radiative r'.

(** * Properties *)

(** ** Helpers on sums, ceilings and lists *)

Lemma fold_left_Rplus_shift (l : list R) (a : R) :
  fold_left Rplus l a = a + fold_left Rplus l 0.
Proof.
  revert a; induction l as [|x l IH]; intros a; simpl.
  - lra.
  - rewrite (IH (a + x)), (IH (0 + x)). lra.
Qed.

Lemma Rsum_snoc (l : list R) (x : R) : Rsum (l ++ [x]) = Rsum l + x.
Proof.
  unfold Rsum. rewrite fold_left_app. reflexivity.
Qed.

Lemma Rceil_spec (x : R) : IZR (Rceil x) - 1 < x <= IZR (Rceil x).
Proof.
  unfold Rceil. destruct (archimed (- x)) as [Hgt Hle].
  rewrite minus_IZR. lra.
Qed.

Lemma Rceil_pos (x : R) : 0 < x -> (1 <= Rceil x)%Z.
Proof.
  intros Hx. destruct (Rceil_spec x) as [_ Hle].
  assert (Hlt : 0 < IZR (Rceil x)) by lra.
  apply lt_IZR in Hlt. lia.
Qed.

Lemma exp_ge_1 (x : R) : 0 <= x -> 1 <= exp x.
Proof.
  intros [Hpos | <-].
  - rewrite <- exp_0. left. now apply exp_increasing.
  - rewrite exp_0. lra.
Qed.

Lemma exp_le_1_neg (x : R) : x <= 0 -> exp x <= 1.
Proof.
  intros [Hneg | ->].
  - rewrite <- exp_0. left. now apply exp_increasing.
  - rewrite exp_0. lra.
Qed.

Lemma last_cons_default {A : Type} (l : list A) (a d : A) :
  last (a :: l) d = last l a.
Proof.
  revert a d; induction l as [|b l IH]; intros a d; [reflexivity|].
  change (last (a :: b :: l) d) with (last (b :: l) d).
  rewrite (IH b d), (IH b a). reflexivity.
Qed.

Lemma nth_pred_length {A : Type} (l : list A) (d : A) :
  l <> [] -> nth (length l - 1) l d = last l d.
Proof.
  intros Hl. destruct (exists_last Hl) as [l' [x ->]].
  rewrite last_last, length_app; simpl.
  rewrite app_nth2 by lia.
  replace (length l' + 1 - 1 - length l')%nat with 0%nat by lia.
  reflexivity.
Qed.

(** ** The layer builder *)

Section LayersFacts.

Import Layers.

Variables (H t0 maxAltitude : R).

Local Abbreviation body := (loop_body H t0 maxAltitude).
Local Abbreviation run := (while_loop H t0 maxAltitude).
Local Abbreviation reach := (reachable H t0 maxAltitude).

Lemma shape_initial : shape (initial t0).
Proof.
  constructor; simpl; try reflexivity.
  - discriminate.
  - unfold nextStart, lastOf; simpl. lra.
  - unfold Rsum; simpl. lra.
  - intros i Hi. simpl in Hi. lia.
Qed.

Lemma shape_step (st : State) : shape st -> shape (body st).
Proof.
  intros [Hlen Hne Hfirst Hnext Hsum Hcont].
  constructor; simpl.
  - rewrite !length_app, Hlen. reflexivity.
  - intros Heq. apply app_eq_nil in Heq. destruct Heq; discriminate.
  - destruct (layerStartPoints st) as [|s starts]; [contradiction | exact Hfirst].
  - unfold nextStart at 1. unfold lastOf; simpl. rewrite !last_last.
    rewrite Hnext. reflexivity.
  - rewrite Rsum_snoc, Hsum. reflexivity.
  - intros i Hi. rewrite length_app in Hi; simpl in Hi.
    assert (Hcase : (S i < length (layerStartPoints st))%nat
                    \/ S i = length (layerStartPoints st)) by lia.
    destruct Hcase as [Hlt | Heq].
    + rewrite !app_nth1 by lia. now apply Hcont.
    + rewrite app_nth2 by lia. rewrite Heq, Nat.sub_diag. simpl.
      rewrite !app_nth1 by lia.
      unfold nextStart, lastOf.
      rewrite <- !nth_pred_length; try assumption.
      * rewrite <- Hlen, <- Heq. simpl. rewrite Nat.sub_0_r. reflexivity.
      * intros Hnil. rewrite Hnil in Hlen. simpl in Hlen.
        destruct (layerStartPoints st); [contradiction | discriminate].
Qed.

Lemma reachable_shape (st : State) : reach st -> shape st.
Proof.
  induction 1 as [|st _ IH _].
  - apply shape_initial.
  - now apply shape_step.
Qed.

(** When the loop returns, it returns a reachable state whose guard fails. *)
Lemma while_loop_exit (fuel : nat) (st final : State) :
  reach st -> run fuel st = Some final ->
  reach final /\ maxAltitude <= accumulatedHeight final.
Proof.
  revert st; induction fuel as [|fuel IH]; intros st Hr Hrun; simpl in Hrun.
  - discriminate.
  - destruct (Rlt_dec (accumulatedHeight st) maxAltitude) as [Hlt | Hge].
    + apply (IH (body st)); [now constructor | exact Hrun].
    + injection Hrun as <-. split; [exact Hr | lra].
Qed.

(** More fuel does not change the result. *)
Lemma while_loop_fuel_mono (fuel fuel' : nat) (st final : State) :
  (fuel <= fuel')%nat -> run fuel st = Some final -> run fuel' st = Some final.
Proof.
  revert fuel' st; induction fuel as [|fuel IH]; intros fuel' st Hle Hrun;
    simpl in Hrun.
  - discriminate.
  - destruct fuel' as [|fuel']; [lia|]. simpl.
    destruct (Rlt_dec (accumulatedHeight st) maxAltitude).
    + apply IH; [lia | exact Hrun].
    + exact Hrun.
Qed.

(** Each unit of fuel but the last adds at most one layer. *)
Lemma while_loop_length (fuel : nat) (st final : State) :
  run fuel st = Some final ->
  (length (layerThicknesses final) + 1
   <= length (layerThicknesses st) + fuel)%nat.
Proof.
  revert st; induction fuel as [|fuel IH]; intros st Hrun; simpl in Hrun.
  - discriminate.
  - destruct (Rlt_dec (accumulatedHeight st) maxAltitude).
    + apply IH in Hrun. simpl in Hrun. rewrite length_app in Hrun.
      simpl in Hrun. lia.
    + injection Hrun as <-. lia.
Qed.

(** The accumulated height never passes [maxAltitude] once the first layer
    fits under it. *)
Lemma reachable_no_overshoot (st : State) :
  t0 <= maxAltitude -> reach st -> accumulatedHeight st <= maxAltitude.
Proof.
  intros Hfit; induction 1 as [|st _ IH Hlt]; simpl.
  - exact Hfit.
  - unfold clip.
    destruct (Rgt_dec _ _) as [Hgt | Hngt]; lra.
Qed.

Hypothesis H_pos : 0 < H.
Hypothesis t0_pos : 0 < t0.

Lemma reachable_height_pos (st : State) : reach st -> t0 <= accumulatedHeight st.
Proof.
  induction 1 as [|st Hr IH Hlt]; simpl.
  - lra.
  - unfold clip. destruct (Rgt_dec _ _) as [Hgt | Hngt]; [lra|].
    assert (0 < calculateNextLayerThickness (nextStart st) t0 H).
    { unfold calculateNextLayerThickness.
      apply Rmult_lt_0_compat; [exact t0_pos | apply exp_pos]. }
    lra.
Qed.

(** The exponential law never proposes less than the first thickness. *)
Lemma next_thickness_ge (st : State) :
  reach st -> t0 <= calculateNextLayerThickness (nextStart st) t0 H.
Proof.
  intros Hr. unfold calculateNextLayerThickness.
  rewrite (shape_next _ (reachable_shape _ Hr)).
  assert (Hacc := reachable_height_pos _ Hr).
  assert (Hexp : 1 <= exp (accumulatedHeight st / H)).
  { apply exp_ge_1. apply Rlt_le, Rdiv_lt_0_compat; lra. }
  nra.
Qed.

(** One iteration strictly raises the accumulated height. *)
Lemma body_increases (st : State) :
  reach st -> accumulatedHeight st < maxAltitude ->
  accumulatedHeight st < accumulatedHeight (body st).
Proof.
  intros Hr Hlt. simpl. unfold clip.
  assert (Hn := next_thickness_ge _ Hr).
  destruct (Rgt_dec _ _); lra.
Qed.

(** One iteration either lands on [maxAltitude] or advances by at least
    [t0]. *)
Lemma body_progress (st : State) :
  reach st -> accumulatedHeight st < maxAltitude ->
  accumulatedHeight (body st) = maxAltitude
  \/ accumulatedHeight st + t0 <= accumulatedHeight (body st).
Proof.
  intros Hr Hlt. simpl. unfold clip.
  assert (Hn := next_thickness_ge _ Hr).
  destruct (Rgt_dec _ _); [left | right]; lra.
Qed.

(** [k + 1] units of fuel suffice when at most [k] first thicknesses are
    missing. *)
Lemma while_loop_terminates (k : nat) (st : State) :
  reach st -> maxAltitude - accumulatedHeight st <= INR k * t0 ->
  exists final, run (S k) st = Some final.
Proof.
  revert st; induction k as [|k IH]; intros st Hr Hgap.
  - simpl in *. destruct (Rlt_dec _ _) as [Hlt | _]; [lra | eauto].
  - remember (S k) as fuel eqn:Hfuel. simpl.
    destruct (Rlt_dec _ _) as [Hlt | _]; [|eauto]. subst fuel.
    apply IH; [now constructor|].
    rewrite S_INR in Hgap.
    assert (0 <= INR k * t0).
    { apply Rmult_le_pos; [apply pos_INR | lra]. }
    destruct (body_progress _ Hr Hlt) as [-> | Hadv]; lra.
Qed.

End LayersFacts.

(** With the guard false from the start the loop body never runs: the
    script keeps its initial state, a single layer of thickness [t0]. *)
Lemma build_no_iteration (H t0 maxAltitude : R) (fuel : nat) :
  maxAltitude <= t0 ->
  Layers.build H t0 maxAltitude (S fuel) = Some (Layers.mkState [0] [t0] t0).
Proof.
  intros Hge. unfold Layers.build. simpl.
  destruct (Rlt_dec t0 maxAltitude) as [Hlt | _]; [lra | reflexivity].
Qed.

(** The number of layers [Rceil (maxAltitude / t0)] bounds the fuel needed. *)
Lemma build_total (H t0 maxAltitude : R) :
  0 < H -> 0 < t0 -> 0 < maxAltitude ->
  exists final,
    Layers.build H t0 maxAltitude (Z.to_nat (Rceil (maxAltitude / t0)))
    = Some final.
Proof.
  intros HH Ht Hm.
  assert (Hq : 0 < maxAltitude / t0) by (apply Rdiv_lt_0_compat; lra).
  assert (Hc := Rceil_pos _ Hq).
  destruct (Rceil_spec (maxAltitude / t0)) as [_ Hup].
  set (n := Z.to_nat (Rceil (maxAltitude / t0))) in *.
  assert (Hn : INR n = IZR (Rceil (maxAltitude / t0))).
  { unfold n. rewrite INR_IZR_INZ, Z2Nat.id by lia. reflexivity. }
  destruct n as [|k] eqn:En.
  { simpl in Hn. assert (Hz : (Rceil (maxAltitude / t0) = 0)%Z)
      by (apply eq_IZR; symmetry; exact Hn). lia. }
  unfold Layers.build.
  apply while_loop_terminates; try assumption.
  - constructor.
  - simpl Layers.accumulatedHeight. rewrite S_INR in Hn.
    assert (Hmul : maxAltitude <= IZR (Rceil (maxAltitude / t0)) * t0).
    { apply (Rmult_le_compat_r t0) in Hup; [|lra].
      unfold Rdiv in Hup. rewrite Rmult_assoc, Rinv_l in Hup by lra. lra. }
    nra.
Qed.

(** The layer stack when the first layer fits under [maxAltitude], in exact
    arithmetic: the script returns, the thicknesses add up to [maxAltitude],
    the layers are contiguous from altitude 0 and the accumulated height is
    [maxAltitude].  In doubles the clipped sum can miss [maxAltitude] by a
    unit in the last place. *)
Lemma layer_stack_exact (H t0 maxAltitude : R) :
  0 < H -> 0 < t0 -> t0 <= maxAltitude ->
  exists final,
    (forall fuel, (Z.to_nat (Rceil (maxAltitude / t0)) <= fuel)%nat ->
       Layers.build H t0 maxAltitude fuel = Some final)
    /\ Rsum (Layers.layerThicknesses final) = maxAltitude
    /\ Layers.accumulatedHeight final = maxAltitude
    /\ length (Layers.layerStartPoints final)
       = length (Layers.layerThicknesses final)
    /\ nth 0 (Layers.layerStartPoints final) 0 = 0
    /\ Layers.contiguous (Layers.layerStartPoints final)
                         (Layers.layerThicknesses final).
Proof.
  intros HH Ht Hfit.
  destruct (build_total H t0 maxAltitude) as [final Hrun]; try lra.
  exists final.
  destruct (while_loop_exit _ _ _ _ _ _ (Layers.reach_initial _ _ _) Hrun)
    as [Hr Hge].
  assert (Hle := reachable_no_overshoot _ _ _ _ Hfit Hr).
  destruct (reachable_shape _ _ _ _ Hr) as [Hlen _ Hfirst _ Hsum Hcont].
  repeat split; try assumption; try lra.
  intros fuel Hfuel. eapply while_loop_fuel_mono; eassumption.
Qed.

(** C1 (defect): at [t0 = 200], [H_scale = 100], [H_total = 100], all
    positive, the builder returns one layer of thickness 200: the
    thicknesses add up to 200, not to [H_total], and the accumulated height
    is above [H_total].  The first layer is stored unclipped, only layers
    made by the loop are cut to the remaining height. *)
Theorem first_layer_overshoots :
  exists final,
    (forall fuel, Layers.build 100 200 100 (S fuel) = Some final)
    /\ Layers.layerThicknesses final = [200]
    /\ Rsum (Layers.layerThicknesses final) <> 100
    /\ 100 < Layers.accumulatedHeight final.
Proof.
  exists (Layers.mkState [0] [200] 200). repeat split.
  - intros fuel. apply build_no_iteration. lra.
  - unfold Rsum; simpl. lra.
  - simpl. lra.
Qed.

(** C2 (defect): when [t0] is above [H_total] the builder does return
    exactly one layer, but its thickness is [t0], which differs from
    [H_total]. *)
Theorem single_layer_keeps_first_thickness (t0 H_scale H_total : R) (fuel : nat) :
  H_total < t0 ->
  Layers.build H_scale t0 H_total (S fuel)
  = Some (Layers.mkState [0] [t0] t0)
  /\ [t0] <> [H_total].
Proof.
  intros Hgt. split.
  - apply build_no_iteration. lra.
  - intros Heq. injection Heq as Heq. lra.
Qed.

Lemma single_layer_keeps_first_thickness_witness :
  100 < 200
  /\ Layers.build 100 200 100 1 = Some (Layers.mkState [0] [200] 200)
  /\ [200] <> [100].
Proof.
  split; [lra|].
  apply (single_layer_keeps_first_thickness 200 100 100 0). lra.
Defined.

(** C9: for positive [t0], [H_scale] and [H_total], every thickness the
    exponential law proposes is at least [t0], every iteration strictly
    raises the accumulated height, and the loop ends: with
    [ceil (H_total / t0)] units of fuel or more the builder returns the same
    final state, whose accumulated height has reached [H_total] and which
    holds at most [ceil (H_total / t0) + 1] layers. *)
Theorem layer_builder_terminates (t0 H_scale H_total : R) :
  0 < t0 -> 0 < H_scale -> 0 < H_total ->
  (forall st,
     Layers.reachable H_scale t0 H_total st ->
     Layers.accumulatedHeight st < H_total ->
     t0 <= Layers.calculateNextLayerThickness (Layers.nextStart st) t0 H_scale
     /\ Layers.accumulatedHeight st
        < Layers.accumulatedHeight (Layers.loop_body H_scale t0 H_total st))
  /\ exists final,
       (forall fuel, (Z.to_nat (Rceil (H_total / t0)) <= fuel)%nat ->
          Layers.build H_scale t0 H_total fuel = Some final)
       /\ H_total <= Layers.accumulatedHeight final
       /\ (length (Layers.layerThicknesses final)
           <= Z.to_nat (Rceil (H_total / t0)) + 1)%nat.
Proof.
  intros Ht HH Hm. split.
  - intros st Hr Hlt. split.
    + now apply (next_thickness_ge H_scale t0 H_total).
    + now apply body_increases.
  - destruct (build_total H_scale t0 H_total) as [final Hrun]; try assumption.
    exists final.
    destruct (while_loop_exit _ _ _ _ _ _ (Layers.reach_initial _ _ _) Hrun)
      as [_ Hge].
    apply while_loop_length in Hrun as Hlen. simpl in Hlen.
    repeat split.
    + intros fuel Hfuel. eapply while_loop_fuel_mono; eassumption.
    + exact Hge.
    + lia.
Qed.

Lemma layer_builder_terminates_witness :
  exists final,
    (forall fuel, (Z.to_nat (Rceil (12000 / 100)) <= fuel)%nat ->
       Layers.build 12000 100 12000 fuel = Some final)
    /\ 12000 <= Layers.accumulatedHeight final
    /\ (length (Layers.layerThicknesses final)
        <= Z.to_nat (Rceil (12000 / 100)) + 1)%nat.
Proof.
  apply (layer_builder_terminates 100 12000 12000); lra.
Defined.

(** ** The notebook: constants *)

Section NotebookFacts.

Import Notebook.

Lemma h_pos : 0 < h.
Proof. unfold h; lra. Qed.

Lemma k_B_pos : 0 < k_B.
Proof. unfold k_B; lra. Qed.

Lemma c_pos : 0 < c.
Proof. unfold c; lra. Qed.

Lemma frequency_pos : 0 < frequency.
Proof.
  unfold frequency, wavelength. apply Rdiv_lt_0_compat; [apply c_pos | lra].
Qed.

Lemma E_upper_pos : 0 < E_upper.
Proof.
  unfold E_upper, energy_transition.
  apply Rmult_lt_0_compat; [apply h_pos | apply frequency_pos].
Qed.

Lemma cos_0_div (x : R) : x / cos 0 = x.
Proof. rewrite cos_0. lra. Qed.

(** Planck radiance is positive at every positive temperature. *)
Lemma planck_pos (T : R) : 0 < T -> 0 < planck T.
Proof.
  intros HT. unfold planck.
  assert (Hh := h_pos). assert (Hk := k_B_pos). assert (Hc := c_pos).
  assert (Hf := frequency_pos).
  apply Rdiv_lt_0_compat.
  - apply Rdiv_lt_0_compat.
    + apply Rmult_lt_0_compat; [lra | apply pow_lt; exact Hf].
    + apply pow_lt; exact Hc.
  - assert (Hx : 0 < h * frequency / (k_B * T)).
    { apply Rdiv_lt_0_compat; apply Rmult_lt_0_compat; assumption. }
    apply exp_increasing in Hx. rewrite exp_0 in Hx. lra.
Qed.

(** *** The exponential at the ends of the binary64 range *)

Lemma range_constants : 0 < / 2 ^ 1075 /\ / 2 ^ 1075 < 1 - / 2 ^ 54 < 1.
Proof. repeat split; lra. Qed.

Lemma np_exp_bounds (x : R) : x <= 0 -> 0 <= np_exp x <= 1.
Proof.
  intros Hx. assert (Hy := exp_pos x). assert (H1 := exp_le_1_neg x Hx).
  unfold np_exp. cbv zeta.
  destruct (Rlt_dec _ _); [lra|].
  destruct (Rle_dec _ _); [|lra].
  destruct (Rlt_dec _ _); lra.
Qed.

Lemma np_exp_mono (x y : R) : x <= y -> y <= 0 -> np_exp x <= np_exp y.
Proof.
  intros Hxy Hy.
  assert (Hexp : exp x <= exp y).
  { destruct Hxy as [Hlt | ->]; [left; now apply exp_increasing | lra]. }
  assert (Hy1 := exp_le_1_neg y Hy).
  assert (Hpx := exp_pos x). destruct range_constants as (Hc1 & Hc2 & Hc3).
  unfold np_exp. cbv zeta.
  repeat match goal with
         | |- context [Rlt_dec ?a ?b] => destruct (Rlt_dec a b)
         | |- context [Rle_dec ?a ?b] => destruct (Rle_dec a b)
         end; lra.
Qed.

Lemma np_exp_underflow (x : R) : exp x < / 2 ^ 1075 -> np_exp x = 0.
Proof.
  intros Hlt. unfold np_exp. cbv zeta.
  destruct (Rlt_dec _ _); [reflexivity | contradiction].
Qed.

Lemma np_exp_saturate (x : R) :
  x <= 0 -> 1 - / 2 ^ 54 < exp x -> np_exp x = 1.
Proof.
  intros Hx Hgt. assert (H1 := exp_le_1_neg x Hx).
  destruct range_constants as (Hc1 & Hc2 & Hc3).
  unfold np_exp. cbv zeta.
  destruct (Rlt_dec _ _); [lra|].
  destruct (Rle_dec _ _); [|lra].
  destruct (Rlt_dec _ _); [reflexivity | contradiction].
Qed.

(** Inside the range the result is the exponential itself. *)
Lemma np_exp_exact (x : R) :
  / 2 ^ 1075 <= exp x <= 1 - / 2 ^ 54 -> np_exp x = exp x.
Proof.
  intros [Hlo Hhi]. destruct range_constants as (Hc1 & Hc2 & Hc3).
  unfold np_exp. cbv zeta.
  destruct (Rlt_dec _ _); [lra|].
  destruct (Rle_dec _ _); [|lra].
  destruct (Rlt_dec _ _); [lra | reflexivity].
Qed.

Lemma exp_INR_mult (n : nat) (a : R) : exp (INR n * a) = exp a ^ n.
Proof.
  induction n as [|n IH].
  - simpl. rewrite Rmult_0_l. apply exp_0.
  - rewrite S_INR, Rmult_plus_distr_r, Rmult_1_l, exp_plus, IH. simpl. ring.
Qed.

(** [exp (-959)] is below half the smallest positive double. *)
Lemma exp_959_underflows : exp (Ropp 959) < / 2 ^ 1075.
Proof.
  rewrite exp_Ropp. apply Rinv_lt_contravar.
  - apply Rmult_lt_0_compat; [apply pow_lt; lra | apply exp_pos].
  - assert (Hhalf : 3 / 2 < exp (1 / 2)).
    { replace (3 / 2) with (1 + 1 / 2) by lra. apply exp_ineq1. lra. }
    replace 959 with (INR 1918 * (1 / 2)).
    + rewrite exp_INR_mult.
      apply Rlt_le_trans with ((3 / 2) ^ 1918); [lra|].
      apply pow_incr. lra.
    + rewrite INR_IZR_INZ. simpl. lra.
Qed.

(** [exp (-480)] is a double in the normal range. *)
Lemma exp_480_in_range : / 2 ^ 1075 <= exp (Ropp 480).
Proof.
  rewrite exp_Ropp. apply Rinv_le_contravar; [apply exp_pos|].
  replace 480 with (INR 480 * 1).
  - rewrite exp_INR_mult.
    apply Rle_trans with (3 ^ 480); [|lra].
    apply pow_incr. split; [left; apply exp_pos | apply exp_le_3].
  - rewrite INR_IZR_INZ. simpl. lra.
Qed.

(** The exponent of the Boltzmann factor: negative, and rising with the
    temperature. *)
Lemma boltzmann_exponent (T : R) :
  0 < T -> - E_upper / (k_B * T) = - (E_upper / (k_B * T))
           /\ - E_upper / (k_B * T) < 0.
Proof.
  intros HT. assert (HE := E_upper_pos). assert (Hk := k_B_pos).
  assert (Hq : 0 < E_upper / (k_B * T)).
  { apply Rdiv_lt_0_compat; [lra | apply Rmult_lt_0_compat; lra]. }
  assert (Heq : - E_upper / (k_B * T) = - (E_upper / (k_B * T))).
  { unfold Rdiv. now rewrite <- Ropp_mult_distr_l. }
  rewrite Heq. split; [reflexivity | lra].
Qed.

Lemma boltzmann_exponent_mono (T1 T2 : R) :
  0 < T1 -> T1 <= T2 ->
  - E_upper / (k_B * T1) <= - E_upper / (k_B * T2).
Proof.
  intros H1 Hle. assert (HE := E_upper_pos). assert (Hk := k_B_pos).
  rewrite (proj1 (boltzmann_exponent T1 H1)).
  rewrite (proj1 (boltzmann_exponent T2 (Rlt_le_trans _ _ _ H1 Hle))).
  apply Ropp_le_contravar. unfold Rdiv.
  apply Rmult_le_compat_l; [lra|].
  apply Rinv_le_contravar; [now apply Rmult_lt_0_compat | nra].
Qed.

(** The transition energy in units of [k_B]: between 959 K and 959.5 K. *)
Lemma transition_energy_bounds : k_B * 959 < E_upper < k_B * (1919 / 2).
Proof.
  unfold E_upper, energy_transition, frequency, h, c, wavelength, k_B.
  split; lra.
Qed.

(** Bounds on the exponent from bounds on the temperature. *)
Lemma boltzmann_exponent_below (T bound x : R) :
  0 < T <= bound -> k_B * bound * x <= E_upper ->
  - E_upper / (k_B * T) <= - x.
Proof.
  intros [HT Hle] Hx. assert (Hk := k_B_pos).
  rewrite (proj1 (boltzmann_exponent T HT)). apply Ropp_le_contravar.
  assert (HkT : 0 < k_B * T) by now apply Rmult_lt_0_compat.
  destruct (Rle_dec x 0) as [Hneg | Hpos].
  - assert (0 < E_upper / (k_B * T))
      by (apply Rdiv_lt_0_compat; [apply E_upper_pos | exact HkT]).
    lra.
  - apply (Rmult_le_reg_r (k_B * T)); [exact HkT|].
    unfold Rdiv. rewrite Rmult_assoc, Rinv_l by lra.
    assert (HkB : k_B * T <= k_B * bound)
      by (apply Rmult_le_compat_l; lra).
    assert (Hxk : x * (k_B * T) <= x * (k_B * bound))
      by (apply Rmult_le_compat_l; lra).
    lra.
Qed.

Lemma boltzmann_exponent_above (T bound x : R) :
  0 < bound <= T -> 0 <= x -> E_upper <= k_B * bound * x ->
  - x <= - E_upper / (k_B * T).
Proof.
  intros [Hb Hle] Hx0 Hx. assert (Hk := k_B_pos).
  assert (HT : 0 < T) by lra.
  rewrite (proj1 (boltzmann_exponent T HT)). apply Ropp_le_contravar.
  assert (HkT : 0 < k_B * T) by now apply Rmult_lt_0_compat.
  apply (Rmult_le_reg_r (k_B * T)); [exact HkT|].
  unfold Rdiv. rewrite Rmult_assoc, Rinv_l by lra.
  assert (HkB : k_B * bound <= k_B * T)
    by (apply Rmult_le_compat_l; lra).
  assert (Hxk : x * (k_B * bound) <= x * (k_B * T))
    by (apply Rmult_le_compat_l; lra).
  lra.
Qed.

(** Up to 1 K the exponential underflows: the factor is exactly 0. *)
Lemma boltzmann_factor_zero (T : R) : 0 < T <= 1 -> boltzmann_factor T = 0.
Proof.
  intros HT. destruct transition_energy_bounds as [Hlow _].
  unfold boltzmann_factor. apply np_exp_underflow.
  assert (Hx : - E_upper / (k_B * T) <= Ropp 959).
  { apply (boltzmann_exponent_below T 1); [exact HT | lra]. }
  apply Rle_lt_trans with (exp (Ropp 959)); [|apply exp_959_underflows].
  destruct Hx as [Hlt | ->]; [left; now apply exp_increasing | lra].
Qed.

(** ** Populations and probabilities *)

(** C6 fails as stated: at 1 K (and below) the exponent is under -959, the
    exponential underflows and the Boltzmann factor is exactly 0, so it is
    not strictly positive, and the factors at 0.5 K and at 1 K are equal,
    not strictly increasing; at [1e20] K the factor rounds to exactly 1, so
    it is not strictly below 1. *)
Lemma boltzmann_factor_underflows :
  boltzmann_factor 1 = 0
  /\ ~ 0 < boltzmann_factor 1
  /\ 1 / 2 < 1 /\ ~ boltzmann_factor (1 / 2) < boltzmann_factor 1
  /\ boltzmann_factor 1e20 = 1.
Proof.
  assert (H1 : boltzmann_factor 1 = 0) by (apply boltzmann_factor_zero; lra).
  assert (H2 : boltzmann_factor (1 / 2) = 0)
    by (apply boltzmann_factor_zero; lra).
  rewrite H2, H1. repeat split; try lra.
  destruct transition_energy_bounds as [_ Hup].
  assert (Hneg := proj2 (boltzmann_exponent 1e20 ltac:(lra))).
  unfold boltzmann_factor. apply np_exp_saturate; [lra|].
  assert (Hx : - (/ 2 ^ 55) <= - E_upper / (k_B * 1e20)).
  { apply (boltzmann_exponent_above 1e20 1e20); [lra | lra|].
    unfold k_B in *. lra. }
  assert (Hexp := exp_ineq1_le (- E_upper / (k_B * 1e20))). lra.
Qed.

(** C6, amended: at every temperature [T > 0] the Boltzmann factor lies in
    [[0, 1]] and it does not decrease when the temperature rises; between
    2 K and [1e6] K it lies strictly between 0 and 1. *)
Theorem boltzmann_factor_range_and_monotone :
  (forall T, 0 < T -> 0 <= boltzmann_factor T <= 1)
  /\ (forall T1 T2, 0 < T1 -> T1 <= T2 ->
        boltzmann_factor T1 <= boltzmann_factor T2)
  /\ (forall T, 2 <= T <= 1e6 -> 0 < boltzmann_factor T < 1).
Proof.
  split; [|split].
  - intros T HT. unfold boltzmann_factor. apply np_exp_bounds.
    left. apply (boltzmann_exponent T HT).
  - intros T1 T2 H1 Hle. unfold boltzmann_factor. apply np_exp_mono.
    + now apply boltzmann_exponent_mono.
    + left. apply (boltzmann_exponent T2). lra.
  - intros T [Hlo Hhi]. destruct transition_energy_bounds as [Hlow Hup].
    assert (Hk := k_B_pos).
    assert (Hx1 : Ropp 480 <= - E_upper / (k_B * T)).
    { apply (boltzmann_exponent_above T 2); [lra | lra | lra]. }
    assert (Hx2 : - E_upper / (k_B * T) <= - (959 / 1e6)).
    { apply (boltzmann_exponent_below T 1e6); [lra|]. lra. }
    assert (He1 : exp (Ropp 480) <= exp (- E_upper / (k_B * T))).
    { destruct Hx1 as [Hlt | <-]; [left; now apply exp_increasing | lra]. }
    assert (He2 : exp (- E_upper / (k_B * T)) <= exp (- (959 / 1e6))).
    { destruct Hx2 as [Hlt | ->]; [left; now apply exp_increasing | lra]. }
    assert (He3 : exp (- (959 / 1e6)) <= 1 - / 2 ^ 54).
    { rewrite exp_Ropp.
      assert (Hge := exp_ineq1_le (959 / 1e6)).
      apply Rle_trans with (/ (1 + 959 / 1e6)).
      - apply Rinv_le_contravar; lra.
      - lra. }
    assert (Hin := exp_480_in_range).
    unfold boltzmann_factor. rewrite np_exp_exact by lra.
    destruct range_constants as (Hc1 & Hc2 & Hc3). lra.
Qed.

Lemma boltzmann_factor_range_and_monotone_witness :
  0 <= boltzmann_factor 1 <= 1
  /\ boltzmann_factor 216.65 <= boltzmann_factor 288.15
  /\ 0 < boltzmann_factor 288.15 < 1.
Proof.
  split; [|split].
  - apply (proj1 boltzmann_factor_range_and_monotone 1). lra.
  - apply (proj1 (proj2 boltzmann_factor_range_and_monotone) 216.65 288.15);
      lra.
  - apply (proj2 (proj2 boltzmann_factor_range_and_monotone) 288.15). lra.
Defined.

(** ** Photon flux *)

(** C8: with positive frequency, bandwidth and solid angle, a radiance of 0
    is converted to a photon flux of exactly 0, and the division by the
    photon energy does not fail. *)
Theorem zero_radiance_zero_flux (freq bandwidth omega : R) :
  0 < freq -> 0 < bandwidth -> 0 < omega ->
  photon_flux_of 0 freq bandwidth omega = Some 0.
Proof.
  intros Hf _ _. unfold photon_flux_of, checked_div.
  assert (Hh := h_pos).
  destruct (Req_dec_T (h * freq) 0) as [Hz | Hnz].
  - assert (0 < h * freq) by now apply Rmult_lt_0_compat. lra.
  - f_equal. unfold Rdiv. lra.
Qed.

Lemma zero_radiance_zero_flux_witness :
  photon_flux_of 0 frequency delta_frequency solid_angle = Some 0.
Proof.
  assert (Hf := frequency_pos).
  apply (zero_radiance_zero_flux frequency delta_frequency solid_angle).
  - exact Hf.
  - unfold delta_frequency. lra.
  - unfold solid_angle. assert (Hpi := PI_RGT_0). lra.
Defined.

End NotebookFacts.

(** ** The de-excitation probabilities in doubles *)

Section Binary64Facts.

Import PrimFloat.

(** C7 fails as stated: with the radiative rate [A21 = 1.0] and the
    collisional rate 0.34864195214249605, both positive, the two
    probabilities computed in binary64 add up to [1 - 2^-53]
    (0.9999999999999999), not to 1.  And when the sum of the rates
    overflows, as for two rates [2^1023], both probabilities are 0 and so
    is their sum. *)
Lemma binary64_probabilities_miss_one :
  ltb 0 Binary64.A21 = true
  /\ ltb 0 Binary64.slow_collisions = true
  /\ Binary64.probability_sum Binary64.A21 Binary64.slow_collisions
     = 0x1.fffffffffffffp-1%float
  /\ eqb (Binary64.probability_sum Binary64.A21 Binary64.slow_collisions) 1
     = false
  /\ Binary64.probability_sum Binary64.huge_rate Binary64.huge_rate
     = 0%float.
Proof. vm_compute. repeat split; reflexivity. Qed.

End Binary64Facts.

Section RoundedProbabilities.

Import Rounding.

Lemma Rabs_bound_inv (a b : R) : Rabs a <= b -> - b <= a <= b.
Proof.
  intros Hab. assert (H1 := Rle_abs a). assert (H2 := Rle_abs (- a)).
  rewrite Rabs_Ropp in H2. lra.
Qed.

Lemma max_double_large : 2 <= max_double.
Proof. unfold max_double. lra. Qed.

Lemma up_mono (x y : R) : x <= y -> (up x <= up y)%Z.
Proof.
  intros Hxy. destruct (archimed x) as [_ Hx]. destruct (archimed y) as [Hy _].
  assert (H : IZR (up x) < IZR (up y) + 1) by lra.
  rewrite <- plus_IZR in H. apply lt_IZR in H. lia.
Qed.

Lemma up_half (k : Z) : up (IZR k - 1 / 2) = k.
Proof. symmetry. apply tech_up; lra. Qed.

Lemma grid_pos : 0 < 2 ^ 1080.
Proof. apply pow_lt. lra. Qed.

Lemma fixed_point_of_grid (k : Z) :
  fixed_point (IZR k / 2 ^ 1080) = IZR k / 2 ^ 1080.
Proof.
  unfold fixed_point. assert (Hg := grid_pos).
  replace (IZR k / 2 ^ 1080 * 2 ^ 1080) with (IZR k) by (field; lra).
  now rewrite up_half.
Qed.

Lemma fixed_point_on_grid (y : R) :
  fixed_point y = y -> exists k, y = IZR k / 2 ^ 1080.
Proof.
  intros Hy. exists (up (y * 2 ^ 1080 - 1 / 2)). now rewrite <- Hy at 1.
Qed.

Lemma fixed_point_integer (k : Z) : fixed_point (IZR k) = IZR k.
Proof.
  assert (Hg := grid_pos).
  assert (Hk : IZR k = IZR (k * 2 ^ 1080) / 2 ^ 1080).
  { rewrite mult_IZR. change 1080%Z with (Z.of_nat 1080).
    rewrite <- pow_IZR. field; lra. }
  rewrite Hk at 1. rewrite fixed_point_of_grid. now rewrite <- Hk.
Qed.

Lemma fixed_point_error (y : R) : Rabs (fixed_point y - y) <= / 2 ^ 1081.
Proof.
  unfold fixed_point. assert (Hg := grid_pos).
  destruct (archimed (y * 2 ^ 1080 - 1 / 2)) as [H1 H2].
  set (n := IZR (up (y * 2 ^ 1080 - 1 / 2))) in *.
  apply Rabs_le.
  assert (Hd : n / 2 ^ 1080 - y = (n - y * 2 ^ 1080) / 2 ^ 1080)
    by (field; lra).
  rewrite Hd.
  assert (Hh : / 2 ^ 1081 = (1 / 2) / 2 ^ 1080) by (simpl; field; lra).
  rewrite Hh. unfold Rdiv at 1 3 4 6.
  assert (Hi : 0 < / 2 ^ 1080) by now apply Rinv_0_lt_compat.
  split; nra.
Qed.

(** Rounding to the nearest multiple of [2^-1080] has the properties. *)
Lemma fixed_point_is_rounding : binary64_rounding fixed_point.
Proof.
  assert (Hg := grid_pos). constructor.
  - intros x y Hxy. unfold fixed_point.
    assert (Hup : (up (x * 2 ^ 1080 - 1 / 2) <= up (y * 2 ^ 1080 - 1 / 2))%Z).
    { apply up_mono. nra. }
    apply IZR_le in Hup. unfold Rdiv.
    apply Rmult_le_compat_r; [left; now apply Rinv_0_lt_compat | exact Hup].
  - apply (fixed_point_integer 0).
  - apply (fixed_point_integer 1).
  - intros y. unfold fixed_point at 2 3. apply fixed_point_of_grid.
  - intros y [Hy _]. assert (He := fixed_point_error y).
    unfold u, eta. assert (0 <= / 2 ^ 53 * y) by (apply Rmult_le_pos; lra).
    assert (/ 2 ^ 1081 <= / 2 ^ 1075) by lra. lra.
  - intros a b Ha Hb Hfa Hfb _.
    destruct (fixed_point_on_grid a Hfa) as [ka Hka].
    destruct (fixed_point_on_grid b Hfb) as [kb Hkb].
    assert (Hab : a + b = IZR (ka + kb) / 2 ^ 1080).
    { rewrite plus_IZR, Hka, Hkb. field; lra. }
    rewrite Hab at 1. rewrite fixed_point_of_grid, <- Hab.
    rewrite Rminus_diag, Rabs_R0. unfold u. apply Rmult_le_pos; lra.
Qed.

(** Exact arithmetic is the trivial rounding. *)
Lemma exact_is_rounding : binary64_rounding (fun y => y).
Proof.
  constructor; try reflexivity.
  - intros x y Hxy. exact Hxy.
  - intros y [Hy _]. rewrite Rminus_diag, Rabs_R0.
    unfold u, eta. assert (0 <= / 2 ^ 53 * y) by (apply Rmult_le_pos; lra).
    lra.
  - intros a b Ha Hb _ _ _. rewrite Rminus_diag, Rabs_R0.
    unfold u. apply Rmult_le_pos; lra.
Qed.

Variable rnd : R -> R.
Hypothesis Hrnd : binary64_rounding rnd.

(** The rounded quotient of a positive number by one that is not smaller. *)
Lemma rounded_quotient (x t : R) :
  0 < x -> x <= t ->
  0 <= rnd (x / t) <= 1
  /\ Rabs (rnd (x / t) - x / t) <= u * (x / t) + eta.
Proof.
  intros Hx Hle. destruct Hrnd as [Hmono H0 H1 _ Herr _].
  assert (Ht : 0 < t) by lra.
  assert (Hq : 0 <= x / t <= 1).
  { split.
    - left. now apply Rdiv_lt_0_compat.
    - apply (Rmult_le_reg_r t); [exact Ht|].
      unfold Rdiv. rewrite Rmult_assoc, Rinv_l by lra. lra. }
  split.
  - split.
    + rewrite <- H0. apply Hmono. lra.
    + rewrite <- H1. apply Hmono. lra.
  - apply Herr. assert (Hm := max_double_large). lra.
Qed.

Lemma probabilities_within_rounding (radiative collisional : R) :
  0 < radiative -> 0 < collisional ->
  rnd radiative = radiative -> rnd collisional = collisional ->
  collisional + radiative <= max_double ->
  0 <= p_radiative rnd radiative collisional <= 1
  /\ 0 <= p_collisional rnd radiative collisional <= 1
  /\ Rabs (probability_sum rnd radiative collisional - 1) <= / 2 ^ 51.
Proof.
  intros Hr Hc Hrr Hrc Hmax.
  unfold probability_sum, p_radiative, p_collisional, total_deexcitation_rate.
  set (S := collisional + radiative) in *.
  set (t := rnd S).
  assert (Hmono := rnd_monotone rnd Hrnd).
  assert (Htr : radiative <= t).
  { rewrite <- Hrr. apply Hmono. unfold S. lra. }
  assert (Htc : collisional <= t).
  { rewrite <- Hrc. apply Hmono. unfold S. lra. }
  assert (Ht : 0 < t) by lra.
  assert (HtS : Rabs (t - S) <= u * S).
  { apply (rnd_sum_error rnd Hrnd); try assumption; lra. }
  apply Rabs_bound_inv in HtS.
  destruct (rounded_quotient radiative t Hr Htr) as [Hp Hpe].
  destruct (rounded_quotient collisional t Hc Htc) as [Hq Hqe].
  set (a := radiative / t) in *. set (b := collisional / t) in *.
  set (p := rnd a) in *. set (q := rnd b) in *.
  split; [exact Hp | split; [exact Hq|]].
  apply Rabs_bound_inv in Hpe. apply Rabs_bound_inv in Hqe.
  assert (Hs : Rabs (rnd (p + q) - (p + q)) <= u * (p + q)).
  { apply (rnd_sum_error rnd Hrnd); try lra.
    - apply (rnd_idempotent rnd Hrnd).
    - apply (rnd_idempotent rnd Hrnd).
    - assert (Hm := max_double_large). lra. }
  apply Rabs_bound_inv in Hs.
  assert (Hab : (a + b) * t = S).
  { unfold a, b, S. field. lra. }
  assert (Hw0 : 0 <= a + b).
  { unfold a, b. assert (0 < radiative / t) by now apply Rdiv_lt_0_compat.
    assert (0 < collisional / t) by now apply Rdiv_lt_0_compat. lra. }
  assert (Hw1 : (a + b) * (1 - u) <= 1).
  { apply (Rmult_le_reg_r t); [exact Ht|]. unfold u in *. nra. }
  assert (Hw2 : 1 <= (a + b) * (1 + u)).
  { apply (Rmult_le_reg_r t); [exact Ht|]. unfold u in *. nra. }
  apply Rabs_le. unfold u, eta in *. lra.
Qed.

End RoundedProbabilities.

(** C7, amended: for positive radiative and collisional rates that are
    doubles whose sum does not overflow, and for every rounding with the
    properties of binary64 round-to-nearest, the two probabilities computed
    as the rounded rate over the rounded total lie in [[0, 1]] and their
    computed sum is within [2^-51] of 1: equal to 1 up to rounding, not
    always exactly 1. *)
Theorem deexcitation_probabilities_sum_within_rounding
  (rnd : R -> R) (radiative collisional : R) :
  Rounding.binary64_rounding rnd ->
  0 < radiative -> 0 < collisional ->
  rnd radiative = radiative -> rnd collisional = collisional ->
  collisional + radiative <= Rounding.max_double ->
  Rounding.p_radiative rnd radiative collisional
  = rnd (radiative / rnd (collisional + radiative))
  /\ Rounding.p_collisional rnd radiative collisional
     = rnd (collisional / rnd (collisional + radiative))
  /\ 0 <= Rounding.p_radiative rnd radiative collisional <= 1
  /\ 0 <= Rounding.p_collisional rnd radiative collisional <= 1
  /\ Rabs (Rounding.probability_sum rnd radiative collisional - 1)
     <= / 2 ^ 51.
Proof.
  intros Hrnd Hr Hc Hrr Hrc Hmax.
  split; [reflexivity | split; [reflexivity|]].
  now apply probabilities_within_rounding.
Qed.

Lemma deexcitation_probabilities_sum_within_rounding_witness :
  0 <= Rounding.p_radiative Rounding.fixed_point 1 2 <= 1
  /\ 0 <= Rounding.p_collisional Rounding.fixed_point 1 2 <= 1
  /\ Rabs (Rounding.probability_sum Rounding.fixed_point 1 2 - 1)
     <= / 2 ^ 51.
Proof.
  apply (deexcitation_probabilities_sum_within_rounding
           Rounding.fixed_point 1 2).
  - apply fixed_point_is_rounding.
  - lra.
  - lra.
  - apply (fixed_point_integer 1).
  - apply (fixed_point_integer 2).
  - unfold Rounding.max_double. lra.
Defined.

(** ** Radiative transfer: the loop and the stack *)

Section TransferFacts.

Import Notebook.

Lemma before_nil (init : R) (col : Contribution -> R) (i : nat) :
  before init col [] i = init.
Proof. unfold before. rewrite firstn_nil. reflexivity. Qed.

Lemma before_0 (init : R) (col : Contribution -> R) (tr : list Contribution) :
  before init col tr 0 = init.
Proof. reflexivity. Qed.

Lemma before_cons (init : R) (col : Contribution -> R) (e : Contribution)
  (tr : list Contribution) (i : nat) :
  before init col (e :: tr) (S i) = before (col e) col tr i.
Proof.
  unfold before. simpl firstn. simpl map. apply last_cons_default.
Qed.

(** Before entry [i + 1] the running value is the column of entry [i]. *)
Lemma before_S (init : R) (col : Contribution -> R) (tr : list Contribution)
  (i : nat) (e : Contribution) :
  nth_error tr i = Some e -> before init col tr (S i) = col e.
Proof.
  revert init i; induction tr as [|e0 tr IH]; intros init i Hi.
  - destruct i; discriminate.
  - rewrite before_cons. destruct i as [|i]; simpl in Hi.
    + injection Hi as <-. apply before_0.
    + now apply IH.
Qed.

(** Iteration [length done] of the loop body, on a table split at that
    index, appends [entry] for the row at the split. *)
Lemma loop_body_at (done rest : list Row) (layer : Row) (st : Transfer) :
  loop_body (done ++ layer :: rest) st (length done)
  = let e := entry (ceiling_above done) (tau_nu st) (I_nu st) layer in
    mkTransfer (I_Nu e) (Tau_Nu e) (layer_contributions st ++ [e]).
Proof.
  unfold loop_body, delta_z, loc, entry.
  rewrite nth_middle.
  assert (Hz : (if (0 <? length done)%nat
                then Altitude (nth (length done - 1) (done ++ layer :: rest)
                                   blank_row) - Altitude layer
                else atmosphere_top - Altitude layer)
               = ceiling_above done - Altitude layer).
  { destruct done as [|d done]; [reflexivity|].
    change (0 <? length (d :: done))%nat with true. cbv iota.
    rewrite app_nth1 by (simpl; lia).
    rewrite nth_pred_length by discriminate. reflexivity. }
  rewrite Hz. reflexivity.
Qed.

(** The indexed loop, started anywhere in the table, appends the entries
    [slab_trace] lists and leaves the running variables at the columns of
    the last one. *)
Lemma fold_slab_trace (rest done : list Row) (st : Transfer) :
  fold_left (loop_body (done ++ rest)) (seq (length done) (length rest)) st
  = let tr := slab_trace (ceiling_above done) (tau_nu st) (I_nu st) rest in
    mkTransfer (before (I_nu st) I_Nu tr (length tr))
               (before (tau_nu st) Tau_Nu tr (length tr))
               (layer_contributions st ++ tr).
Proof.
  revert done st; induction rest as [|layer rest IH]; intros done st.
  - simpl. rewrite app_nil_r. destruct st; reflexivity.
  - cbn [length seq fold_left]. rewrite loop_body_at.
    replace (done ++ layer :: rest) with ((done ++ [layer]) ++ rest)
      by (rewrite <- app_assoc; reflexivity).
    replace (S (length done)) with (length (done ++ [layer]))
      by (rewrite length_app; simpl; lia).
    rewrite IH. cbn [I_nu tau_nu layer_contributions slab_trace length].
    assert (Hc : ceiling_above (done ++ [layer]) = Altitude layer).
    { unfold ceiling_above. destruct (done ++ [layer]) eqn:E.
      - destruct done; discriminate.
      - rewrite <- E, last_last. reflexivity. }
    rewrite Hc, !before_cons, <- app_assoc. reflexivity.
Qed.

(** The loop over a whole table. *)
Lemma integrate_slab_trace (stack : list Row) :
  let tr := slab_trace atmosphere_top 0 0 stack in
  integrate stack
  = mkTransfer (before 0 I_Nu tr (length tr)) (before 0 Tau_Nu tr (length tr))
               tr.
Proof.
  unfold integrate. apply (fold_slab_trace stack [] transfer_init).
Qed.

Lemma slab_trace_length (stack : list Row) (ceiling tau I : R) :
  length (slab_trace ceiling tau I stack) = length stack.
Proof.
  revert ceiling tau I; induction stack as [|l stack IH]; intros; simpl;
    [reflexivity | now rewrite IH].
Qed.

(** Entry [i] of the trace, in terms of row [i], of the extent of that
    layer and of the running values before it. *)
Lemma slab_trace_entry (stack : list Row) (ceiling tau I : R) (i : nat)
  (layer : Row) (e : Contribution) :
  nth_error stack i = Some layer ->
  nth_error (slab_trace ceiling tau I stack) i = Some e ->
  let tr := slab_trace ceiling tau I stack in
  let ds := nth i (layer_thickness ceiling stack) 0 / cos 0 in
  contrib_Layer e = Layer layer
  /\ contrib_Altitude e = Altitude layer
  /\ Delta_Tau e = Kappa layer * ds
  /\ Tau_Nu e = before tau Tau_Nu tr i + Delta_Tau e
  /\ B_Nu e = planck (Temperature layer)
  /\ dI_Nu e
     = B_Nu e * (1 - exp (- Delta_Tau e)) * exp (- Tau_Nu e)
       * P_radiative layer
  /\ I_Nu e = before I I_Nu tr i + dI_Nu e.
Proof.
  revert ceiling tau I i; induction stack as [|l stack IH];
    intros ceiling tau I i Hl He; [destruct i; discriminate|].
  destruct i as [|i]; simpl in Hl, He.
  - injection Hl as <-. injection He as <-.
    cbn zeta. rewrite !before_0. simpl. repeat split; reflexivity.
  - cbn zeta. cbn [slab_trace]. rewrite !before_cons.
    cbn [layer_thickness nth].
    exact (IH _ _ _ i Hl He).
Qed.

End TransferFacts.

(** ** Sorting the table *)

Section SortFacts.

Import Notebook.

Lemma insert_desc_perm (x : Row) (rows : list Row) :
  Permutation (insert_desc x rows) (x :: rows).
Proof.
  induction rows as [|y rows IH]; simpl; [reflexivity|].
  destruct (Rlt_dec (Altitude x) (Altitude y)); [|reflexivity].
  rewrite IH. apply perm_swap.
Qed.

Lemma sort_values_desc_perm (rows : list Row) :
  Permutation (sort_values_desc rows) rows.
Proof.
  induction rows as [|x rows IH]; simpl; [reflexivity|].
  rewrite insert_desc_perm. now constructor.
Qed.

Lemma sort_values_desc_In (rows : list Row) (row : Row) :
  In row (sort_values_desc rows) -> In row rows.
Proof.
  apply Permutation_in, sort_values_desc_perm.
Qed.

Lemma sort_values_desc_length (rows : list Row) :
  length (sort_values_desc rows) = length rows.
Proof.
  apply Permutation_length, sort_values_desc_perm.
Qed.

Lemma insert_desc_top_down (x : Row) (rows : list Row) :
  top_down rows -> top_down (insert_desc x rows).
Proof.
  unfold top_down.
  induction rows as [|y rows IH]; simpl; intros Hs.
  - repeat constructor.
  - destruct (Rlt_dec (Altitude x) (Altitude y)) as [Hlt | Hge].
    + inversion Hs as [|? ? Hs' Hhd]; subst. constructor.
      * now apply IH.
      * destruct rows as [|z rows]; simpl.
        -- constructor; lra.
        -- destruct (Rlt_dec (Altitude x) (Altitude z)).
           ++ constructor. now inversion Hhd.
           ++ constructor; lra.
    + constructor; [exact Hs | constructor; lra].
Qed.

Lemma sort_values_desc_top_down (rows : list Row) :
  top_down (sort_values_desc rows).
Proof.
  induction rows as [|x rows IH]; simpl.
  - constructor.
  - now apply insert_desc_top_down.
Qed.

End SortFacts.

(** ** Radiative transfer: what the trace satisfies *)

Section TraceFacts.

Import Notebook.

Lemma exp_le_1 (x : R) : x <= 0 -> exp x <= 1.
Proof.
  intros [Hneg | ->].
  - rewrite <- exp_0. left. now apply exp_increasing.
  - rewrite exp_0. lra.
Qed.

Lemma slab_trace_nth (stack : list Row) (ceiling tau I : R) (i : nat)
  (layer : Row) :
  nth_error stack i = Some layer ->
  exists e, nth_error (slab_trace ceiling tau I stack) i = Some e.
Proof.
  intros Hl.
  assert (Hi : (i < length stack)%nat)
    by (apply nth_error_Some; rewrite Hl; discriminate).
  rewrite <- (slab_trace_length stack ceiling tau I) in Hi.
  apply nth_error_Some in Hi.
  destruct (nth_error (slab_trace ceiling tau I stack) i) as [e|];
    [now exists e | contradiction].
Qed.

Lemma slab_trace_row (stack : list Row) (ceiling tau I : R) (i : nat)
  (e : Contribution) :
  nth_error (slab_trace ceiling tau I stack) i = Some e ->
  exists layer, nth_error stack i = Some layer.
Proof.
  intros He.
  assert (Hi : (i < length (slab_trace ceiling tau I stack))%nat)
    by (apply nth_error_Some; rewrite He; discriminate).
  rewrite slab_trace_length in Hi. apply nth_error_Some in Hi.
  destruct (nth_error stack i) as [layer|];
    [now exists layer | contradiction].
Qed.

(** Optical depth does not decrease from an entry to the next one when the
    rows are listed top down and no [Kappa] is negative. *)
Lemma slab_trace_tau_mono (stack : list Row) :
  top_down stack -> (forall l, In l stack -> 0 <= Kappa l) ->
  forall ceiling tau I i e e',
    nth_error (slab_trace ceiling tau I stack) i = Some e ->
    nth_error (slab_trace ceiling tau I stack) (S i) = Some e' ->
    Tau_Nu e <= Tau_Nu e'.
Proof.
  unfold top_down.
  induction stack as [|l stack IH]; intros Hs Hk ceiling tau I i e e' He He'.
  - destruct i; discriminate.
  - inversion Hs as [|? ? Hs' Hhd]; subst.
    destruct i as [|i]; cbn [slab_trace nth_error] in He, He'.
    + injection He as He. rewrite He in He'. clear He.
      destruct stack as [|l' stack]; [discriminate|].
      cbn [slab_trace nth_error] in He'. injection He' as <-.
      assert (Hk' : 0 <= Kappa l') by (apply Hk; simpl; auto).
      assert (Ha : Altitude l' <= Altitude l) by now inversion Hhd.
      unfold entry; cbn [Tau_Nu]. rewrite cos_0_div.
      assert (0 <= Kappa l' * (Altitude l - Altitude l'))
        by (apply Rmult_le_pos; lra).
      lra.
    + eapply IH; eauto. intros l0 Hl0. apply Hk. now right.
Qed.

(** With [Kappa = 0] in every row and no radiance to start with, every
    entry contributes 0 and records a radiance of 0. *)
Lemma slab_trace_zero (stack : list Row) :
  (forall l, In l stack -> Kappa l = 0) ->
  forall ceiling tau i e,
    nth_error (slab_trace ceiling tau 0 stack) i = Some e ->
    dI_Nu e = 0 /\ I_Nu e = 0.
Proof.
  induction stack as [|l stack IH]; intros Hk ceiling tau i e He.
  - destruct i; discriminate.
  - assert (Hl : Kappa l = 0) by (apply Hk; simpl; auto).
    assert (Hd : dI_Nu (entry ceiling tau 0 l) = 0).
    { unfold entry; cbn [dI_Nu]. rewrite Hl, Rmult_0_l, Ropp_0, exp_0. lra. }
    assert (HI : I_Nu (entry ceiling tau 0 l) = 0).
    { unfold entry in *; cbn [dI_Nu I_Nu] in *. rewrite Hd. lra. }
    destruct i as [|i]; cbn [slab_trace nth_error] in He.
    + injection He as <-. split; assumption.
    + rewrite HI in He. eapply IH; eauto.
      intros l0 Hl0. apply Hk. now right.
Qed.

(** No entry contributes a negative radiance when the rows are listed top
    down under the ceiling, with [Kappa >= 0], [Temperature > 0] and
    [P_radiative >= 0] in every row. *)
Lemma slab_trace_nonneg (stack : list Row) :
  top_down stack ->
  (forall l, In l stack ->
     0 <= Kappa l /\ 0 < Temperature l /\ 0 <= P_radiative l) ->
  forall ceiling tau I i e,
    (forall l, nth_error stack 0 = Some l -> Altitude l <= ceiling) ->
    nth_error (slab_trace ceiling tau I stack) i = Some e ->
    0 <= Delta_Tau e /\ 0 <= dI_Nu e.
Proof.
  unfold top_down.
  induction stack as [|l stack IH]; intros Hs Hc ceiling tau I i e Htop He.
  - destruct i; discriminate.
  - inversion Hs as [|? ? Hs' Hhd]; subst.
    destruct i as [|i]; cbn [slab_trace nth_error] in He.
    + injection He as <-.
      destruct (Hc l) as (Hk & HT & HP); [simpl; auto|].
      assert (Ha : Altitude l <= ceiling) by now apply Htop.
      unfold entry; cbn [Delta_Tau dI_Nu]. rewrite cos_0_div.
      assert (Hd : 0 <= Kappa l * (ceiling - Altitude l))
        by (apply Rmult_le_pos; lra).
      split; [exact Hd|].
      assert (HB := planck_pos _ HT).
      assert (He1 : exp (- (Kappa l * (ceiling - Altitude l))) <= 1)
        by (apply exp_le_1; lra).
      assert (He2 := exp_pos (- (tau + Kappa l * (ceiling - Altitude l)))).
      apply Rmult_le_pos; [apply Rmult_le_pos; [apply Rmult_le_pos|]|]; lra.
    + eapply IH; eauto.
      * intros l0 Hl0. apply Hc. now right.
      * intros l0 Hl0. destruct stack as [|l' stack]; [discriminate|].
        simpl in Hl0. injection Hl0 as <-. now inversion Hhd.
Qed.

End TraceFacts.

(** ** Radiative transfer: the integrator *)

Section IntegratorFacts.

Import Notebook.

(** The whole cell in terms of [slab_trace] on the sorted table. *)
Lemma radiative_transfer_trace (table : list Row) :
  let tr := slab_trace atmosphere_top 0 0 (sort_values_desc table) in
  radiative_transfer table
  = mkTransfer (before 0 I_Nu tr (length tr)) (before 0 Tau_Nu tr (length tr))
               tr.
Proof.
  unfold radiative_transfer. apply integrate_slab_trace.
Qed.

(** Opens a statement about [radiative_transfer table]: replaces the cell
    by its trace over the sorted table and names the two. *)
Ltac on_sorted_trace table stack tr :=
  cbv zeta; rewrite radiative_transfer_trace; cbv zeta;
  cbn [layer_contributions I_nu tau_nu];
  set (stack := sort_values_desc table);
  set (tr := slab_trace atmosphere_top 0 0 stack).

Lemma layer_thickness_nth (stack : list Row) (ceiling : R) (i : nat)
  (layer : Row) :
  nth_error stack i = Some layer ->
  Altitude layer + nth i (layer_thickness ceiling stack) 0
  = match i with
    | O => ceiling
    | S j => Altitude (nth j stack blank_row)
    end.
Proof.
  revert ceiling i; induction stack as [|l stack IH]; intros ceiling i Hl.
  - destruct i; discriminate.
  - destruct i as [|i]; simpl in Hl.
    + injection Hl as <-. simpl. lra.
    + cbn [layer_thickness nth]. rewrite (IH _ _ Hl).
      destruct i; reflexivity.
Qed.

Lemma sample_table_sorted :
  sort_values_desc sample_table
  = [ sample_row 2 5e3 255.65 1e-4 0.5; sample_row 1 0 288.15 1e-4 0.5 ].
Proof.
  unfold sample_table, sort_values_desc; simpl.
  destruct (Rlt_dec 0 5e3) as [_ | Hn]; [reflexivity | exfalso; lra].
Qed.

Lemma transparent_table_sorted :
  sort_values_desc transparent_table
  = [ sample_row 2 5e3 255.65 0 0.5; sample_row 1 0 288.15 0 0.5 ].
Proof.
  unfold transparent_table, sort_values_desc; simpl.
  destruct (Rlt_dec 0 5e3) as [_ | Hn]; [reflexivity | exfalso; lra].
Qed.

(** C3: the integrator processes the table from the highest layer down and
    is a sequential fold.  The trace has one entry per layer; in entry [i]
    the optical depth is the previous one plus [Delta_Tau], the
    contribution is [planck * (1 - exp (- Delta_Tau)) * exp (- Tau_Nu)
    * P_radiative] with [Tau_Nu] the depth already incremented, and the
    radiance is the previous one plus that contribution, both starting from
    0; the radiance returned is the one recorded for the last layer. *)
Theorem transfer_is_sequential_fold (table : list Row) :
  let stack := sort_values_desc table in
  let result := radiative_transfer table in
  let trace := layer_contributions result in
  top_down stack
  /\ Permutation stack table
  /\ length trace = length stack
  /\ (forall i layer, nth_error stack i = Some layer ->
        exists e, nth_error trace i = Some e
          /\ B_Nu e = planck (Temperature layer)
          /\ Tau_Nu e = before 0 Tau_Nu trace i + Delta_Tau e
          /\ dI_Nu e = B_Nu e * (1 - exp (- Delta_Tau e)) * exp (- Tau_Nu e)
                       * P_radiative layer
          /\ I_Nu e = before 0 I_Nu trace i + dI_Nu e)
  /\ (forall n e, length trace = S n -> nth_error trace n = Some e ->
        I_nu result = I_Nu e /\ tau_nu result = Tau_Nu e)
  /\ (trace = [] -> I_nu result = 0 /\ tau_nu result = 0).
Proof.
  on_sorted_trace table stack tr.
  split; [apply sort_values_desc_top_down|].
  split; [apply sort_values_desc_perm|].
  split; [apply slab_trace_length|].
  split; [|split].
  - intros i layer Hl.
    destruct (slab_trace_nth stack atmosphere_top 0 0 i layer Hl) as [e He].
    exists e. split; [exact He|].
    destruct (slab_trace_entry _ _ _ _ _ _ _ Hl He)
      as (_ & _ & _ & Htau & HB & HdI & HI).
    repeat split; assumption.
  - intros n e Hlen He. rewrite Hlen.
    split; now apply before_S.
  - intros ->. split; reflexivity.
Qed.

Lemma transfer_is_sequential_fold_witness :
  let upper := sample_row 2 5e3 255.65 1e-4 0.5 in
  let lower := sample_row 1 0 288.15 1e-4 0.5 in
  let result := radiative_transfer sample_table in
  let trace := layer_contributions result in
  nth_error (sort_values_desc sample_table) 0 = Some upper
  /\ nth_error (sort_values_desc sample_table) 1 = Some lower
  /\ exists e0 e1,
       nth_error trace 0 = Some e0
       /\ nth_error trace 1 = Some e1
       /\ Tau_Nu e0 = 0 + Delta_Tau e0
       /\ I_Nu e0 = 0 + dI_Nu e0
       /\ B_Nu e1 = planck (Temperature lower)
       /\ Tau_Nu e1 = Tau_Nu e0 + Delta_Tau e1
       /\ dI_Nu e1 = B_Nu e1 * (1 - exp (- Delta_Tau e1)) * exp (- Tau_Nu e1)
                     * P_radiative lower
       /\ I_Nu e1 = I_Nu e0 + dI_Nu e1
       /\ I_nu result = I_Nu e1
       /\ tau_nu result = Tau_Nu e1.
Proof.
  intros upper lower result trace.
  assert (H0 : nth_error (sort_values_desc sample_table) 0 = Some upper)
    by (rewrite sample_table_sorted; reflexivity).
  assert (H1 : nth_error (sort_values_desc sample_table) 1 = Some lower)
    by (rewrite sample_table_sorted; reflexivity).
  destruct (transfer_is_sequential_fold sample_table)
    as (_ & _ & Hlen & Hstep & Hend & _).
  destruct (Hstep 0%nat upper H0) as (e0 & He0 & _ & Ht0 & _ & HI0).
  destruct (Hstep 1%nat lower H1) as (e1 & He1 & HB1 & Ht1 & Hd1 & HI1).
  rewrite (before_S 0 Tau_Nu _ _ _ He0) in Ht1.
  rewrite (before_S 0 I_Nu _ _ _ He0) in HI1.
  rewrite before_0 in Ht0, HI0.
  assert (Hl : length (layer_contributions (radiative_transfer sample_table))
               = 2%nat) by (rewrite Hlen, sample_table_sorted; reflexivity).
  destruct (Hend 1%nat e1 Hl He1) as [HIr Htr].
  split; [exact H0|]. split; [exact H1|]. exists e0, e1.
  repeat split; assumption.
Defined.

(** C4: for every layer of the top-down pass, the topmost included, the
    path length behind [Delta_Tau] is the layer's own thickness divided by
    [cos 0], and [Delta_Tau] is [Kappa] times that path length.  The
    thickness of a layer is its extent from its own altitude up to the base
    of the layer above it, and up to the top of the atmosphere for the
    topmost layer. *)
Theorem path_length_is_layer_thickness (table : list Row) (i : nat)
  (layer : Row) :
  let stack := sort_values_desc table in
  let trace := layer_contributions (radiative_transfer table) in
  let layerThickness := nth i (layer_thickness atmosphere_top stack) 0 in
  let geometricPathLength := layerThickness / cos 0 in
  nth_error stack i = Some layer ->
  Altitude layer + layerThickness
  = match i with
    | O => atmosphere_top
    | S j => Altitude (nth j stack blank_row)
    end
  /\ exists e, nth_error trace i = Some e
       /\ contrib_Layer e = Layer layer
       /\ Delta_Tau e = Kappa layer * geometricPathLength.
Proof.
  cbv zeta. rewrite radiative_transfer_trace. cbv zeta.
  cbn [layer_contributions]. intros Hl. split.
  - now apply layer_thickness_nth.
  - destruct (slab_trace_nth _ atmosphere_top 0 0 i layer Hl) as [e He].
    exists e. split; [exact He|].
    destruct (slab_trace_entry _ _ _ _ _ _ _ Hl He) as (HL & _ & HD & _).
    split; assumption.
Qed.

Lemma path_length_is_layer_thickness_witness :
  let stack := sort_values_desc sample_table in
  let trace := layer_contributions (radiative_transfer sample_table) in
  let layerThickness := nth 1 (layer_thickness atmosphere_top stack) 0 in
  Altitude (sample_row 1 0 288.15 1e-4 0.5) + layerThickness
  = Altitude (nth 0 stack blank_row)
  /\ exists e, nth_error trace 1 = Some e
       /\ contrib_Layer e = 1%Z
       /\ Delta_Tau e = 1e-4 * (layerThickness / cos 0).
Proof.
  apply (path_length_is_layer_thickness sample_table 1
           (sample_row 1 0 288.15 1e-4 0.5)).
  rewrite sample_table_sorted. reflexivity.
Defined.

(** C5: with no negative [Kappa] in the table, the optical depth recorded
    for a layer is at most the one recorded for the next layer; and when
    every [Kappa] is 0, every layer contributes 0 and the running radiance
    is 0 after every step and at the end. *)
Theorem optical_depth_monotone_and_zero_radiance (table : list Row) :
  let result := radiative_transfer table in
  let trace := layer_contributions result in
  ((forall row, In row table -> 0 <= Kappa row) ->
   forall i e e',
     nth_error trace i = Some e -> nth_error trace (S i) = Some e' ->
     Tau_Nu e <= Tau_Nu e')
  /\ ((forall row, In row table -> Kappa row = 0) ->
      (forall i e, nth_error trace i = Some e -> dI_Nu e = 0 /\ I_Nu e = 0)
      /\ I_nu result = 0).
Proof.
  on_sorted_trace table stack tr.
  split.
  - intros Hk i e e' He He'.
    apply (slab_trace_tau_mono stack) with (ceiling := atmosphere_top)
      (tau := 0) (I := 0) (i := i); try assumption.
    + apply sort_values_desc_top_down.
    + intros l Hl. apply Hk. now apply sort_values_desc_In.
  - intros Hk.
    assert (Hz : forall i e, nth_error tr i = Some e ->
                   dI_Nu e = 0 /\ I_Nu e = 0).
    { intros i e He. apply (slab_trace_zero stack) with atmosphere_top 0 i.
      - intros l Hl. apply Hk. now apply sort_values_desc_In.
      - exact He. }
    split; [exact Hz|].
    destruct (length tr) as [|n] eqn:Hlen; [apply before_0|].
    assert (Hn : (n < length tr)%nat) by lia.
    apply nth_error_Some in Hn.
    destruct (nth_error tr n) as [e|] eqn:He; [|contradiction].
    rewrite (before_S _ _ _ _ _ He). now apply (Hz n).
Qed.

Lemma optical_depth_monotone_and_zero_radiance_witness :
  (exists e e',
     nth_error (layer_contributions (radiative_transfer sample_table)) 0
     = Some e
     /\ nth_error (layer_contributions (radiative_transfer sample_table)) 1
        = Some e'
     /\ Tau_Nu e <= Tau_Nu e')
  /\ I_nu (radiative_transfer transparent_table) = 0.
Proof.
  split.
  - assert (Hk : forall row, In row sample_table -> 0 <= Kappa row).
    { intros row [<- | [<- | []]]; simpl; lra. }
    assert (Htr : exists e e',
               nth_error (layer_contributions (radiative_transfer sample_table)) 0
               = Some e
               /\ nth_error (layer_contributions (radiative_transfer sample_table)) 1
                  = Some e').
    { unfold radiative_transfer. rewrite sample_table_sorted.
      eexists; eexists; split; reflexivity. }
    destruct Htr as (e & e' & He & He').
    exists e, e'. split; [exact He | split; [exact He'|]].
    exact (proj1 (optical_depth_monotone_and_zero_radiance sample_table)
             Hk 0%nat e e' He He').
  - apply (proj2 (optical_depth_monotone_and_zero_radiance transparent_table)).
    intros row [<- | [<- | []]]; reflexivity.
Defined.

(** C10 fails as stated: a single layer at 200 km, above the 100 km the
    loop takes as the top of the atmosphere, with [Kappa = 1e-5 >= 0],
    [Temperature = 250 > 0] and [P_radiative = 1 >= 0], has a negative path
    length, hence [Delta_Tau = -1] and a negative contribution: the radiance
    drops below its initial 0. *)
Lemma negative_contribution_above_ceiling :
  (forall row, In row high_table ->
     0 <= Kappa row /\ 0 < Temperature row /\ 0 <= P_radiative row)
  /\ exists e,
       nth_error (layer_contributions (radiative_transfer high_table)) 0
       = Some e
       /\ Delta_Tau e = -1
       /\ dI_Nu e < 0
       /\ I_Nu e < 0.
Proof.
  split.
  - intros row [<- | []]; simpl; lra.
  - eexists. split; [reflexivity|].
    cbn [Delta_Tau dI_Nu I_Nu]. unfold loc, delta_z; cbn.
    rewrite cos_0_div.
    match goal with
    | |- ?d = -1 /\ _ =>
        assert (Hd : d = -1) by (unfold atmosphere_top; lra); rewrite Hd
    end.
    assert (HB : 0 < planck 250) by (apply planck_pos; lra).
    assert (He : 1 < exp 1).
    { rewrite <- exp_0 at 1. apply exp_increasing; lra. }
    replace (- -1) with 1 by lra. replace (- (0 + -1)) with 1 by lra.
    assert (Hpos : 0 < planck 250 * (exp 1 - 1) * exp 1).
    { apply Rmult_lt_0_compat; [apply Rmult_lt_0_compat|]; lra. }
    assert (Hneg : planck 250 * (1 - exp 1) * exp 1 * 1 < 0) by lra.
    split; [reflexivity | split; lra].
Qed.

(** C10, amended: when moreover no layer lies above the top of the
    atmosphere assumed by the loop, every contribution is non-negative, so
    the radiance never drops: not at an entry with respect to the value
    before it, and not from an entry to the next. *)
Theorem contributions_nonnegative_under_ceiling (table : list Row) :
  let trace := layer_contributions (radiative_transfer table) in
  (forall row, In row table ->
     0 <= Kappa row /\ 0 < Temperature row /\ 0 <= P_radiative row) ->
  (forall row, In row table -> Altitude row <= atmosphere_top) ->
  (forall i e, nth_error trace i = Some e ->
     0 <= dI_Nu e /\ before 0 I_Nu trace i <= I_Nu e)
  /\ (forall i e e',
        nth_error trace i = Some e -> nth_error trace (S i) = Some e' ->
        I_Nu e <= I_Nu e').
Proof.
  on_sorted_trace table stack tr.
  intros Hc Htop.
  assert (Hall : forall i e, nth_error tr i = Some e ->
                   0 <= dI_Nu e /\ before 0 I_Nu tr i <= I_Nu e).
  { intros i e He.
    assert (Hd : 0 <= dI_Nu e).
    { apply (slab_trace_nonneg stack) with atmosphere_top 0 0 i.
      - apply sort_values_desc_top_down.
      - intros l Hl. apply Hc. now apply sort_values_desc_In.
      - intros l Hl. apply Htop, sort_values_desc_In.
        eapply nth_error_In; exact Hl.
      - exact He. }
    split; [exact Hd|].
    destruct (slab_trace_row _ _ _ _ _ _ He) as [layer Hl].
    destruct (slab_trace_entry _ _ _ _ _ _ _ Hl He)
      as (_ & _ & _ & _ & _ & _ & HI).
    fold tr in HI. lra. }
  split; [exact Hall|].
  intros i e e' He He'.
  destruct (Hall _ _ He') as [_ Hle].
  rewrite (before_S _ _ _ _ _ He) in Hle. exact Hle.
Qed.

Lemma contributions_nonnegative_under_ceiling_witness :
  exists e e',
    nth_error (layer_contributions (radiative_transfer sample_table)) 0
    = Some e
    /\ nth_error (layer_contributions (radiative_transfer sample_table)) 1
       = Some e'
    /\ 0 <= dI_Nu e /\ I_Nu e <= I_Nu e'.
Proof.
  assert (Hc : forall row, In row sample_table ->
             0 <= Kappa row /\ 0 < Temperature row /\ 0 <= P_radiative row).
  { intros row [<- | [<- | []]]; simpl; lra. }
  assert (Htop : forall row, In row sample_table ->
             Altitude row <= atmosphere_top).
  { intros row [<- | [<- | []]]; unfold atmosphere_top; simpl; lra. }
  assert (Htr : exists e e',
             nth_error (layer_contributions (radiative_transfer sample_table)) 0
             = Some e
             /\ nth_error (layer_contributions (radiative_transfer sample_table)) 1
                = Some e').
  { unfold radiative_transfer. rewrite sample_table_sorted.
    eexists; eexists; split; reflexivity. }
  destruct Htr as (e & e' & He & He').
  exists e, e'. split; [exact He | split; [exact He'|]].
  destruct (contributions_nonnegative_under_ceiling sample_table Hc Htop)
    as [Hall Hstep].
  split; [apply (Hall 0%nat e He) | apply (Hstep 0%nat e e' He He')].
Defined.

End IntegratorFacts.

(** * Further properties of the code *)

(** ** The layer builder: shape of the stack *)

Section LayersStack.

Import Layers.

Variables (H t0 maxAltitude : R).

Local Abbreviation body' := (loop_body H t0 maxAltitude).
Local Abbreviation reach' := (reachable H t0 maxAltitude).

Lemma firstn_snoc_nth (l : list R) (i : nat) :
  (i < length l)%nat -> firstn (S i) l = firstn i l ++ [nth i l 0].
Proof.
  revert i; induction l as [|x l IH]; intros i Hi; simpl in Hi; [lia|].
  destruct i as [|i]; [reflexivity|].
  rewrite firstn_cons, (IH i) by lia. reflexivity.
Qed.

(** In a contiguous stack starting at 0 every start point is the sum of the
    thicknesses below it. *)
Lemma contiguous_partial_sums (starts thicks : list R) :
  nth 0 starts 0 = 0 -> length starts = length thicks ->
  contiguous starts thicks ->
  forall i, (i < length starts)%nat ->
    nth i starts 0 = Rsum (firstn i thicks).
Proof.
  intros H0 Hlen Hc i; induction i as [|i IH]; intros Hi.
  - rewrite H0. reflexivity.
  - rewrite (Hc i Hi), IH by lia.
    rewrite firstn_snoc_nth by lia. rewrite Rsum_snoc. reflexivity.
Qed.

Lemma law_at_0 : law H t0 0 = t0.
Proof.
  unfold law, calculateNextLayerThickness, Rdiv.
  rewrite Rmult_0_l, exp_0. lra.
Qed.

Lemma lawful_initial : lawful H t0 maxAltitude (initial t0).
Proof.
  assert (Hi : forall i, (i < 1)%nat ->
            nth i [t0] 0 = law H t0 (nth i [0] 0)).
  { intros i Hi. destruct i; [|lia]. simpl. now rewrite law_at_0. }
  constructor; unfold initial;
    cbn [layerThicknesses layerStartPoints accumulatedHeight length].
  - intros i Hi'. lia.
  - intros _. exact Hi.
  - intros i Hi'. rewrite (Hi i Hi'). lra.
Qed.

Lemma lawful_step (st : State) :
  shape st -> accumulatedHeight st < maxAltitude ->
  lawful H t0 maxAltitude st -> lawful H t0 maxAltitude (body' st).
Proof.
  intros Hs Hlt [_ Hopen _].
  assert (Hlen := shape_len _ Hs).
  set (n := length (layerThicknesses st)).
  assert (Hold : forall i, (i < n)%nat ->
            nth i (layerThicknesses (body' st)) 0
            = law H t0 (nth i (layerStartPoints (body' st)) 0)).
  { intros i Hi. unfold loop_body; cbn [layerThicknesses layerStartPoints].
    rewrite !app_nth1 by (fold n; lia). now apply Hopen. }
  assert (Hstart : nth n (layerStartPoints (body' st)) 0 = nextStart st).
  { unfold loop_body; cbn [layerStartPoints]. unfold n. rewrite <- Hlen.
    apply nth_middle. }
  assert (Hnew : nth n (layerThicknesses (body' st)) 0
                 = clip maxAltitude (accumulatedHeight st)
                     (law H t0 (nextStart st))).
  { unfold loop_body; cbn [layerThicknesses]. apply nth_middle. }
  assert (Hsplit : forall i, (i < length (layerThicknesses (body' st)))%nat ->
            (i < n)%nat \/ i = n).
  { intros i. unfold loop_body; cbn [layerThicknesses].
    rewrite length_app. fold n. simpl. lia. }
  assert (Hacc : accumulatedHeight (body' st)
                 = accumulatedHeight st
                   + clip maxAltitude (accumulatedHeight st)
                       (law H t0 (nextStart st))) by reflexivity.
  constructor.
  - intros i Hi. apply Hold.
    unfold loop_body in Hi; cbn [layerThicknesses] in Hi.
    rewrite length_app in Hi. fold n in Hi. simpl in Hi. lia.
  - intros Hlt' i Hi. destruct (Hsplit i Hi) as [Ho | ->]; [now apply Hold|].
    rewrite Hnew, Hstart. rewrite Hacc in Hlt'. unfold clip in *.
    destruct (Rgt_dec _ _) as [Hgt | _]; [lra | reflexivity].
  - intros i Hi. destruct (Hsplit i Hi) as [Ho | ->].
    + rewrite (Hold i Ho). lra.
    + rewrite Hnew, Hstart. unfold clip.
      destruct (Rgt_dec _ _) as [Hgt | _]; lra.
Qed.

Lemma reachable_lawful (st : State) :
  reach' st -> lawful H t0 maxAltitude st.
Proof.
  induction 1 as [|st Hr IH Hlt].
  - apply lawful_initial.
  - apply lawful_step;
      [now apply (reachable_shape H t0 maxAltitude) | assumption | assumption].
Qed.

Hypothesis H_pos : 0 < H.
Hypothesis t0_pos : 0 < t0.

Lemma law_pos (s : R) : 0 < law H t0 s.
Proof.
  unfold law, calculateNextLayerThickness.
  apply Rmult_lt_0_compat; [exact t0_pos | apply exp_pos].
Qed.

Lemma law_increasing (s s' : R) : s < s' -> law H t0 s < law H t0 s'.
Proof.
  intros Hlt. unfold law, calculateNextLayerThickness.
  apply Rmult_lt_compat_l; [exact t0_pos|].
  apply exp_increasing. unfold Rdiv.
  apply Rmult_lt_compat_r; [now apply Rinv_0_lt_compat | exact Hlt].
Qed.

(** Every layer of a reachable state has a positive thickness. *)
Lemma reachable_thickness_pos (st : State) :
  reach' st ->
  forall i, (i < length (layerThicknesses st))%nat ->
    0 < nth i (layerThicknesses st) 0.
Proof.
  induction 1 as [|st Hr IH Hlt]; intros i Hi.
  - simpl in *. destruct i; [exact t0_pos | lia].
  - simpl in *. rewrite length_app in Hi; simpl in Hi.
    assert (Hcase : (i < length (layerThicknesses st))%nat
                    \/ i = length (layerThicknesses st)) by lia.
    destruct Hcase as [Ho | ->].
    + rewrite app_nth1 by lia. now apply IH.
    + rewrite app_nth2 by lia. rewrite Nat.sub_diag. simpl.
      unfold clip. destruct (Rgt_dec _ _); [lra|].
      apply (law_pos (nextStart st)).
Qed.

End LayersStack.

Lemma while_loop_continue (H t0 maxAltitude : R) (fuel : nat)
  (st : Layers.State) :
  Layers.accumulatedHeight st < maxAltitude ->
  Layers.while_loop H t0 maxAltitude (S fuel) st
  = Layers.while_loop H t0 maxAltitude fuel
      (Layers.loop_body H t0 maxAltitude st).
Proof.
  intros Hlt. simpl.
  destruct (Rlt_dec _ _) as [_ | Hn]; [reflexivity | contradiction].
Qed.

Lemma while_loop_stop (H t0 maxAltitude : R) (fuel : nat)
  (st : Layers.State) :
  maxAltitude <= Layers.accumulatedHeight st ->
  Layers.while_loop H t0 maxAltitude (S fuel) st = Some st.
Proof.
  intros Hge. simpl.
  destruct (Rlt_dec _ _) as [Hlt | _]; [lra | reflexivity].
Qed.

(** A run with three layers: first thickness 1, scale height 1, column
    height 5.  The second layer has thickness [exp 1], the third is cut to
    what is left. *)
Lemma three_layer_build :
  exists final,
    Layers.build 1 1 5 3 = Some final
    /\ length (Layers.layerThicknesses final) = 3%nat
    /\ length (Layers.layerStartPoints final) = 3%nat.
Proof.
  assert (He2 : 2 < exp 1).
  { replace 2 with (1 + 1) by lra. apply exp_ineq1. lra. }
  assert (He3 := exp_le_3).
  set (st0 := Layers.initial 1).
  set (st1 := Layers.loop_body 1 1 5 st0).
  set (st2 := Layers.loop_body 1 1 5 st1).
  assert (H1 : Layers.accumulatedHeight st1 = 1 + exp 1).
  { unfold st1, st0, Layers.loop_body, Layers.initial, Layers.nextStart,
      Layers.lastOf, Layers.clip, Layers.calculateNextLayerThickness.
    cbn [Layers.accumulatedHeight Layers.layerStartPoints
         Layers.layerThicknesses last].
    replace ((0 + 1) / 1) with 1 by lra.
    destruct (Rgt_dec _ _) as [Hgt | _]; lra. }
  assert (Hn1 : Layers.nextStart st1 = 1 + exp 1).
  { rewrite <- H1. apply Layers.shape_next. apply (reachable_shape 1 1 5).
    apply Layers.reach_step; [apply Layers.reach_initial | simpl; lra]. }
  assert (H2 : Layers.accumulatedHeight st2 = 5).
  { unfold st2, Layers.loop_body. cbn [Layers.accumulatedHeight].
    rewrite Hn1, H1. unfold Layers.clip, Layers.calculateNextLayerThickness.
    destruct (Rgt_dec _ _) as [_ | Hngt]; [lra|].
    exfalso. apply Hngt.
    replace ((1 + exp 1) / 1) with (1 + exp 1) by lra.
    rewrite exp_plus.
    assert (Hx : 1 + exp 1 <= exp (exp 1)) by apply exp_ineq1_le.
    nra. }
  exists st2. split; [|split; reflexivity].
  unfold Layers.build. fold st0.
  rewrite while_loop_continue by (simpl; lra). fold st1.
  rewrite while_loop_continue by (rewrite H1; lra). fold st2.
  apply while_loop_stop. rewrite H2. lra.
Qed.

(** X2: in the stack the builder returns, the start point of every layer is
    the sum of the thicknesses of the layers below it. *)
Theorem start_points_are_partial_sums (H t0 maxAltitude : R) (fuel : nat)
  (final : Layers.State) (i : nat) :
  Layers.build H t0 maxAltitude fuel = Some final ->
  (i < length (Layers.layerStartPoints final))%nat ->
  nth i (Layers.layerStartPoints final) 0
  = Rsum (firstn i (Layers.layerThicknesses final)).
Proof.
  intros Hrun Hi.
  destruct (while_loop_exit _ _ _ _ _ _ (Layers.reach_initial _ _ _) Hrun)
    as [Hr _].
  destruct (reachable_shape _ _ _ _ Hr) as [Hlen _ Hfirst _ _ Hcont].
  now apply contiguous_partial_sums.
Qed.

Lemma start_points_are_partial_sums_witness :
  exists final,
    Layers.build 1 1 5 3 = Some final
    /\ nth 2 (Layers.layerStartPoints final) 0
       = Rsum (firstn 2 (Layers.layerThicknesses final)).
Proof.
  destruct three_layer_build as (final & Hrun & _ & Hlen).
  exists final. split; [exact Hrun|].
  apply (start_points_are_partial_sums 1 1 5 3 final 2 Hrun).
  rewrite Hlen. lia.
Defined.

(** X4: with positive first thickness and scale height, the layers below
    the last one get strictly thicker with altitude. *)
Theorem thickness_grows_with_altitude (H t0 maxAltitude : R) (fuel : nat)
  (final : Layers.State) (i : nat) :
  0 < H -> 0 < t0 ->
  Layers.build H t0 maxAltitude fuel = Some final ->
  (S (S i) < length (Layers.layerThicknesses final))%nat ->
  nth i (Layers.layerThicknesses final) 0
  < nth (S i) (Layers.layerThicknesses final) 0.
Proof.
  intros HH Ht Hrun Hi.
  destruct (while_loop_exit _ _ _ _ _ _ (Layers.reach_initial _ _ _) Hrun)
    as [Hr _].
  destruct (reachable_lawful _ _ _ _ Hr) as [Hinner _ _].
  destruct (reachable_shape _ _ _ _ Hr) as [Hlen _ _ _ _ Hcont].
  rewrite (Hinner i) by lia. rewrite (Hinner (S i)) by lia.
  apply law_increasing; try assumption.
  rewrite (Hcont i) by lia.
  assert (Hp := reachable_thickness_pos H t0 maxAltitude Ht final Hr i).
  assert (0 < nth i (Layers.layerThicknesses final) 0) by (apply Hp; lia).
  lra.
Qed.

Lemma thickness_grows_with_altitude_witness :
  exists final,
    Layers.build 1 1 5 3 = Some final
    /\ nth 0 (Layers.layerThicknesses final) 0
       < nth 1 (Layers.layerThicknesses final) 0.
Proof.
  destruct three_layer_build as (final & Hrun & Hlen & _).
  exists final. split; [exact Hrun|].
  apply (thickness_grows_with_altitude 1 1 5 3 final 0); try assumption;
    try lra; rewrite Hlen; lia.
Defined.

(** ** The notebook: populations, rates and coefficients of a derived row *)

Section DerivedRows.

Import Notebook.


Lemma np_exp_le_exp (x : R) : exp x <= 1 - / 2 ^ 54 -> np_exp x <= exp x.
Proof.
  intros Hhi. destruct (Rlt_dec (exp x) (/ 2 ^ 1075)) as [Hlo | Hlo].
  - rewrite np_exp_underflow by assumption. left. apply exp_pos.
  - rewrite np_exp_exact by lra. lra.
Qed.

Lemma exp_le_np_exp (x : R) :
  x <= 0 -> / 2 ^ 1075 <= exp x -> exp x <= np_exp x.
Proof.
  intros Hx Hlo. assert (H1 := exp_le_1_neg x Hx).
  destruct (Rlt_dec (1 - / 2 ^ 54) (exp x)) as [Hhi | Hhi].
  - rewrite np_exp_saturate by assumption. exact H1.
  - rewrite np_exp_exact by lra. lra.
Qed.

Lemma boltzmann_factor_cold (T : R) :
  0 < T <= 959 -> boltzmann_factor T < 1 / 2.
Proof.
  intros HT. destruct transition_energy_bounds as [Hlow _].
  assert (Hx : - E_upper / (k_B * T) <= - 1).
  { replace (- 1) with (Ropp 1) by lra.
    apply (boltzmann_exponent_below T 959); [exact HT | lra]. }
  assert (He : exp (- E_upper / (k_B * T)) <= exp (Ropp 1)).
  { destruct Hx as [Hlt | ->].
    - left. replace (Ropp 1) with (- 1) by lra. now apply exp_increasing.
    - replace (Ropp 1) with (- 1) by lra. lra. }
  assert (H2 : exp (Ropp 1) < 1 / 2).
  { rewrite exp_Ropp.
    assert (H1 : 2 < exp 1)
      by (replace 2 with (1 + 1) by lra; apply exp_ineq1; lra).
    apply (Rmult_lt_reg_r (exp 1)); [lra|]. rewrite Rinv_l by lra. lra. }
  unfold boltzmann_factor.
  apply Rle_lt_trans with (exp (- E_upper / (k_B * T))); [|lra].
  apply np_exp_le_exp. lra.
Qed.

Lemma boltzmann_factor_hot (T : R) :
  1919 <= T -> 1 / 2 < boltzmann_factor T.
Proof.
  intros HT. destruct transition_energy_bounds as [_ Hup].
  assert (HT0 : 0 < T) by lra.
  assert (Hx : Ropp (1 / 2) <= - E_upper / (k_B * T)).
  { apply (boltzmann_exponent_above T 1919); [lra | lra | lra]. }
  assert (He : exp (Ropp (1 / 2)) <= exp (- E_upper / (k_B * T))).
  { destruct Hx as [Hlt | <-]; [left; now apply exp_increasing | lra]. }
  assert (H1 : 1 / 2 < exp (Ropp (1 / 2))).
  { assert (Hi := exp_ineq1 (Ropp (1 / 2))). lra. }
  unfold boltzmann_factor.
  apply Rlt_le_trans with (exp (- E_upper / (k_B * T))); [lra|].
  apply exp_le_np_exp.
  - left. apply (boltzmann_exponent T HT0).
  - lra.
Qed.

Lemma number_density_pos (P T : R) : 0 < P -> 0 < T -> 0 < number_density P T.
Proof.
  intros HP HT. unfold number_density.
  apply Rdiv_lt_0_compat; [exact HP|].
  apply Rmult_lt_0_compat; [apply k_B_pos | exact HT].
Qed.

Lemma m_CO2_pos : 0 < m_CO2.
Proof. unfold m_CO2, M_CO2, N_A. lra. Qed.

Lemma average_speed_pos (T : R) : 0 < T -> 0 < average_speed T.
Proof.
  intros HT. unfold average_speed. apply sqrt_lt_R0.
  assert (Hk := k_B_pos). assert (Hm := m_CO2_pos). assert (Hpi := PI_RGT_0).
  apply Rdiv_lt_0_compat.
  - apply Rmult_lt_0_compat; lra.
  - apply Rmult_lt_0_compat; lra.
Qed.



(** X6: the sign of the absorption coefficient of a derived row with
    positive pressure and mixing ratio.  It is positive up to 959 K (fewer
    molecules in the upper state than in the lower one) and negative from
    1919 K on, where the Boltzmann factor exceeds one half. *)
Theorem kappa_sign (p : Profile) :
  0 < profile_Pressure p -> 0 < profile_CO2_Mixing_Ratio p ->
  (0 < profile_Temperature p <= 959 -> 0 < Kappa (derive p))
  /\ (1919 <= profile_Temperature p -> Kappa (derive p) < 0).
Proof.
  intros HP HM.
  assert (Hn : 0 < profile_Temperature p ->
               0 < co2_number_density
                     (number_density (profile_Pressure p) (profile_Temperature p))
                     (profile_CO2_Mixing_Ratio p)).
  { intros HT. unfold co2_number_density.
    apply Rmult_lt_0_compat; [now apply number_density_pos | exact HM]. }
  unfold derive; cbn [Kappa]. unfold kappa, n_lower, n_upper, Z_partition, sigma_nu.
  split.
  - intros HT. specialize (Hn (proj1 HT)).
    assert (Hb := boltzmann_factor_cold _ HT).
    set (bf := boltzmann_factor _) in *. set (n := co2_number_density _ _) in *.
    apply Rmult_lt_0_compat; [|lra]. nra.
  - intros HT. assert (HT0 : 0 < profile_Temperature p) by lra.
    specialize (Hn HT0).
    assert (Hb := boltzmann_factor_hot _ HT).
    set (bf := boltzmann_factor _) in *. set (n := co2_number_density _ _) in *.
    assert (n * (1 - bf) / 1 - n * bf / 1 < 0) by nra.
    nra.
Qed.

Lemma kappa_sign_witness :
  0 < Kappa (derive (mkProfile 1 0 288.15 101325 400e-6))
  /\ Kappa (derive (mkProfile 1 0 2000 101325 400e-6)) < 0.
Proof.
  split.
  - apply (kappa_sign (mkProfile 1 0 288.15 101325 400e-6)); simpl; lra.
  - apply (kappa_sign (mkProfile 1 0 2000 101325 400e-6)); simpl; lra.
Defined.

End DerivedRows.

(** ** Radiative transfer: what the result depends on *)

Section TransferInputs.

Import Notebook.

Lemma insert_desc_same (x x' : Row) (rows rows' : list Row) :
  same_inputs x x' -> Forall2 same_inputs rows rows' ->
  Forall2 same_inputs (insert_desc x rows) (insert_desc x' rows').
Proof.
  intros Hx Hrows; induction Hrows as [|y y' rows rows' Hy Hrows IH]; simpl.
  - constructor; [assumption | constructor].
  - assert (Hax : Altitude x = Altitude x') by apply Hx.
    assert (Hay : Altitude y = Altitude y') by apply Hy.
    rewrite <- Hax, <- Hay.
    destruct (Rlt_dec (Altitude x) (Altitude y)).
    + constructor; [exact Hy | exact IH].
    + constructor; [exact Hx|].
      constructor; [exact Hy | exact Hrows].
Qed.

Lemma sort_values_desc_same (rows rows' : list Row) :
  Forall2 same_inputs rows rows' ->
  Forall2 same_inputs (sort_values_desc rows) (sort_values_desc rows').
Proof.
  induction 1 as [|x x' rows rows' Hx Hrows IH]; simpl.
  - constructor.
  - now apply insert_desc_same.
Qed.

Lemma slab_trace_same (stack stack' : list Row) :
  Forall2 same_inputs stack stack' ->
  forall ceiling tau I,
    slab_trace ceiling tau I stack = slab_trace ceiling tau I stack'.
Proof.
  induction 1 as [|l l' stack stack' Hl Hs IH]; intros ceiling tau I;
    [reflexivity|].
  cbn [slab_trace]. destruct Hl as (HL & HA & HT & HK & HP).
  assert (He : entry ceiling tau I l = entry ceiling tau I l').
  { unfold entry. rewrite HL, HA, HT, HK, HP. reflexivity. }
  rewrite He, HA, IH. reflexivity.
Qed.

(** X8: the transfer cell reads only the columns [Layer], [Altitude],
    [Temperature], [Kappa] and [P_radiative]: two tables whose rows agree
    on these give the same radiance, optical depth and trace, whatever
    their other columns (the emission coefficient among them) hold. *)
Theorem transfer_reads_five_columns (table table' : list Row) :
  Forall2 same_inputs table table' ->
  radiative_transfer table = radiative_transfer table'.
Proof.
  intros Hsame. rewrite !radiative_transfer_trace. cbv zeta.
  rewrite (slab_trace_same _ _ (sort_values_desc_same _ _ Hsame)).
  reflexivity.
Qed.

Lemma transfer_reads_five_columns_witness :
  radiative_transfer [sample_row 1 0 288.15 1e-4 0.5]
  = radiative_transfer
      [mkRow 1 0 288.15 101325 400e-6 1 1 1 1 1 1 1 1 1 0.5 0.5 1e-4 7].
Proof.
  apply transfer_reads_five_columns.
  constructor; [|constructor]. repeat split.
Defined.

Lemma insert_desc_In (x y : Row) (rows : list Row) :
  In y (insert_desc x rows) -> y = x \/ In y rows.
Proof.
  intros Hy. apply (Permutation_in _ (insert_desc_perm x rows)) in Hy.
  destruct Hy as [<- | Hy]; auto.
Qed.

Lemma insert_desc_strict (x : Row) (rows : list Row) :
  strictly_top_down rows ->
  (forall y, In y rows -> Altitude y <> Altitude x) ->
  strictly_top_down (insert_desc x rows).
Proof.
  unfold strictly_top_down.
  induction rows as [|y rows IH]; simpl; intros Hs Hne.
  - constructor; constructor.
  - inversion Hs as [|? ? Hs' Hall]; subst.
    assert (Hy : Altitude y <> Altitude x) by (apply Hne; auto).
    destruct (Rlt_dec (Altitude x) (Altitude y)) as [Hlt | Hge].
    + constructor.
      * apply IH; [exact Hs' | intros z Hz; apply Hne; auto].
      * apply Forall_forall. intros z Hz.
        destruct (insert_desc_In _ _ _ Hz) as [-> | Hz']; [exact Hlt|].
        rewrite Forall_forall in Hall. now apply Hall.
    + constructor; [exact Hs|].
      constructor; [lra|].
      rewrite Forall_forall in *. intros z Hz.
      specialize (Hall z Hz). lra.
Qed.

Lemma sort_values_desc_strict (rows : list Row) :
  NoDup (map Altitude rows) -> strictly_top_down (sort_values_desc rows).
Proof.
  induction rows as [|x rows IH]; simpl; intros Hnd.
  - constructor.
  - inversion Hnd as [|? ? Hnotin Hnd']; subst.
    apply insert_desc_strict; [now apply IH|].
    intros y Hy Heq. apply Hnotin. rewrite <- Heq.
    apply in_map. now apply sort_values_desc_In.
Qed.

(** Two strictly top-down lists with the same rows are the same list. *)
Lemma strictly_top_down_unique (l1 l2 : list Row) :
  strictly_top_down l1 -> strictly_top_down l2 -> Permutation l1 l2 ->
  l1 = l2.
Proof.
  unfold strictly_top_down.
  revert l2; induction l1 as [|a l1 IH]; intros l2 H1 H2 Hp.
  - apply Permutation_nil in Hp. now subst.
  - destruct l2 as [|b l2].
    { apply Permutation_sym, Permutation_nil in Hp. discriminate. }
    inversion H1 as [|? ? H1' Ha]; subst.
    inversion H2 as [|? ? H2' Hb]; subst.
    rewrite Forall_forall in Ha, Hb.
    assert (Hab : a = b).
    { assert (Hina : In a (b :: l2))
        by (apply (Permutation_in _ Hp); simpl; auto).
      assert (Hinb : In b (a :: l1))
        by (apply (Permutation_in _ (Permutation_sym Hp)); simpl; auto).
      destruct Hina as [-> | Hina]; [reflexivity|].
      destruct Hinb as [-> | Hinb]; [reflexivity|].
      specialize (Ha _ Hinb). specialize (Hb _ Hina). lra. }
    subst b. f_equal. apply IH; try assumption.
    now apply Permutation_cons_inv in Hp.
Qed.

(** X9: because the cell sorts the table itself, the order of the rows in
    the table does not matter: two tables with the same rows, no two at the
    same altitude, give the same radiance, optical depth and trace. *)
Theorem transfer_ignores_row_order (table table' : list Row) :
  Permutation table table' -> NoDup (map Altitude table) ->
  radiative_transfer table = radiative_transfer table'.
Proof.
  intros Hp Hnd. unfold radiative_transfer. f_equal.
  apply strictly_top_down_unique.
  - now apply sort_values_desc_strict.
  - apply sort_values_desc_strict.
    apply (Permutation_NoDup (Permutation_map Altitude Hp) Hnd).
  - rewrite (sort_values_desc_perm table), (sort_values_desc_perm table').
    exact Hp.
Qed.

Lemma transfer_ignores_row_order_witness :
  radiative_transfer sample_table
  = radiative_transfer
      [ sample_row 2 5e3 255.65 1e-4 0.5; sample_row 1 0 288.15 1e-4 0.5 ].
Proof.
  apply transfer_ignores_row_order.
  - apply perm_swap.
  - simpl. constructor; [|constructor; [|constructor]].
    + intros [Heq | []]. lra.
    + intros [].
Defined.

End TransferInputs.

(** ** Radiative transfer: sums and bounds *)

(** Opens a statement about [radiative_transfer table]: replaces the cell
    by its trace over the sorted table and names the two. *)
Ltac open_transfer table stack tr :=
  cbv zeta; rewrite radiative_transfer_trace; cbv zeta;
  cbn [Notebook.layer_contributions Notebook.I_nu Notebook.tau_nu];
  set (stack := Notebook.sort_values_desc table);
  set (tr := Notebook.slab_trace Notebook.atmosphere_top 0 0 stack).

Section TransferSums.

Import Notebook.

Lemma Rsum_cons (x : R) (l : list R) : Rsum (x :: l) = x + Rsum l.
Proof.
  unfold Rsum; simpl. rewrite fold_left_Rplus_shift. lra.
Qed.

(** The running columns of the trace are partial sums of its increments. *)
Lemma slab_trace_partial_sums (stack : list Row) :
  forall ceiling tau I i e,
    nth_error (slab_trace ceiling tau I stack) i = Some e ->
    Tau_Nu e
    = tau + Rsum (map Delta_Tau
                    (firstn (S i) (slab_trace ceiling tau I stack)))
    /\ I_Nu e
       = I + Rsum (map dI_Nu
                     (firstn (S i) (slab_trace ceiling tau I stack))).
Proof.
  induction stack as [|l stack IH]; intros ceiling tau I i e He.
  - destruct i; discriminate.
  - cbn [slab_trace] in *. rewrite firstn_cons. cbn [map].
    rewrite !Rsum_cons.
    destruct i as [|i]; cbn [nth_error] in He.
    + injection He as <-. rewrite firstn_O. cbn [map].
      unfold Rsum; simpl. unfold entry; cbn [Tau_Nu I_Nu Delta_Tau dI_Nu].
      split; lra.
    + destruct (IH _ _ _ _ _ He) as [Ht HI]. rewrite Ht, HI.
      unfold entry; cbn [Tau_Nu I_Nu Delta_Tau dI_Nu]. split; lra.
Qed.

(** X10: the optical depth and the radiance recorded for a layer are the
    sums of the increments [Delta_Tau] and [dI_Nu] of the trace up to that
    layer, and the values the cell ends with are the sums over the whole
    trace. *)
Theorem transfer_accumulates_increments (table : list Row) :
  let result := radiative_transfer table in
  let trace := layer_contributions result in
  tau_nu result = Rsum (map Delta_Tau trace)
  /\ I_nu result = Rsum (map dI_Nu trace)
  /\ forall i e, nth_error trace i = Some e ->
       Tau_Nu e = Rsum (map Delta_Tau (firstn (S i) trace))
       /\ I_Nu e = Rsum (map dI_Nu (firstn (S i) trace)).
Proof.
  open_transfer table stack tr.
  assert (Hall : forall i e, nth_error tr i = Some e ->
            Tau_Nu e = Rsum (map Delta_Tau (firstn (S i) tr))
            /\ I_Nu e = Rsum (map dI_Nu (firstn (S i) tr))).
  { intros i e He.
    destruct (slab_trace_partial_sums _ _ _ _ _ _ He) as [Ht HI].
    fold tr in Ht, HI. split; lra. }
  assert (Hend : forall run inc : Contribution -> R,
            (forall i e, nth_error tr i = Some e ->
               run e = Rsum (map inc (firstn (S i) tr))) ->
            before 0 run tr (length tr) = Rsum (map inc tr)).
  { intros run inc Hcol. destruct (length tr) as [|n] eqn:Hlen.
    - destruct tr; [reflexivity | discriminate].
    - assert (Hn : (n < length tr)%nat) by lia.
      apply nth_error_Some in Hn.
      destruct (nth_error tr n) as [e|] eqn:He; [|contradiction].
      rewrite (before_S _ _ _ _ _ He), (Hcol n e He), <- Hlen, firstn_all.
      reflexivity. }
  split; [|split].
  - apply Hend. intros i e He. apply (Hall i e He).
  - apply Hend. intros i e He. apply (Hall i e He).
  - exact Hall.
Qed.

Lemma transfer_accumulates_increments_witness :
  let trace := layer_contributions (radiative_transfer sample_table) in
  exists e, nth_error trace 1 = Some e
    /\ Tau_Nu e = Rsum (map Delta_Tau (firstn 2 trace)).
Proof.
  cbv zeta.
  assert (Htr : exists e,
             nth_error (layer_contributions (radiative_transfer sample_table)) 1
             = Some e).
  { unfold radiative_transfer. rewrite sample_table_sorted.
    eexists; reflexivity. }
  destruct Htr as [e He]. exists e. split; [exact He|].
  apply (transfer_accumulates_increments sample_table). exact He.
Defined.

(** With the same [Kappa] in every row the optical depth telescopes. *)
Lemma slab_trace_uniform (k : R) (stack : list Row) :
  stack <> [] -> (forall l, In l stack -> Kappa l = k) ->
  forall ceiling tau I,
    before tau Tau_Nu (slab_trace ceiling tau I stack) (length stack)
    = tau + k * (ceiling - lowest_altitude stack).
Proof.
  unfold lowest_altitude.
  induction stack as [|l stack IH]; intros Hne Hk ceiling tau I;
    [contradiction|].
  assert (Hl : Kappa l = k) by (apply Hk; simpl; auto).
  cbn [slab_trace length]. rewrite before_cons.
  destruct stack as [|l' stack].
  - cbn [slab_trace length]. rewrite before_0.
    unfold entry; cbn [Tau_Nu last]. rewrite cos_0_div, Hl. reflexivity.
  - rewrite IH; [|discriminate | intros l0 Hl0; apply Hk; now right].
    unfold entry; cbn [Tau_Nu]. rewrite cos_0_div, Hl.
    change (last (l :: l' :: stack) blank_row)
      with (last (l' :: stack) blank_row).
    lra.
Qed.

(** X11: when every row has the same absorption coefficient [k], the final
    optical depth is [k] times the height from the lowest layer up to the
    100 km the loop takes as the top of the atmosphere, however the column
    is cut into layers. *)
Theorem uniform_column_optical_depth (table : list Row) (k : R) :
  table <> [] -> (forall row, In row table -> Kappa row = k) ->
  tau_nu (radiative_transfer table)
  = k * (atmosphere_top - lowest_altitude (sort_values_desc table)).
Proof.
  intros Hne Hk. rewrite radiative_transfer_trace. cbv zeta.
  cbn [tau_nu]. rewrite slab_trace_length.
  rewrite (slab_trace_uniform k).
  - lra.
  - intros Hnil. apply Hne.
    apply Permutation_nil. rewrite <- Hnil.
    apply sort_values_desc_perm.
  - intros l Hl. apply Hk. now apply sort_values_desc_In.
Qed.

Lemma uniform_column_optical_depth_witness :
  tau_nu (radiative_transfer sample_table)
  = 1e-4 * (atmosphere_top - lowest_altitude (sort_values_desc sample_table)).
Proof.
  apply (uniform_column_optical_depth sample_table 1e-4).
  - discriminate.
  - intros row [<- | [<- | []]]; reflexivity.
Defined.

(** Under the ceiling and without negative [Kappa] no increment of the
    optical depth is negative. *)
Lemma slab_trace_depth_nonneg (stack : list Row) :
  top_down stack -> (forall l, In l stack -> 0 <= Kappa l) ->
  forall ceiling tau I i e,
    (forall l, nth_error stack 0 = Some l -> Altitude l <= ceiling) ->
    nth_error (slab_trace ceiling tau I stack) i = Some e ->
    0 <= Delta_Tau e /\ tau <= Tau_Nu e.
Proof.
  unfold top_down.
  induction stack as [|l stack IH]; intros Hs Hk ceiling tau I i e Htop He.
  - destruct i; discriminate.
  - inversion Hs as [|? ? Hs' Hhd]; subst.
    assert (Hl : 0 <= Kappa l) by (apply Hk; simpl; auto).
    assert (Ha : Altitude l <= ceiling) by now apply Htop.
    assert (Hd : 0 <= Kappa l * (ceiling - Altitude l))
      by (apply Rmult_le_pos; lra).
    destruct i as [|i]; cbn [slab_trace nth_error] in He.
    + injection He as <-. unfold entry; cbn [Delta_Tau Tau_Nu].
      rewrite cos_0_div. split; lra.
    + apply IH in He; try assumption.
      * destruct He as [H0 Hle]. split; [exact H0|].
        unfold entry in Hle; cbn [Tau_Nu] in Hle.
        rewrite cos_0_div in Hle. lra.
      * intros l0 Hl0. apply Hk. now right.
      * intros l0 Hl0. destruct stack as [|l' stack]; [discriminate|].
        simpl in Hl0. injection Hl0 as <-. now inversion Hhd.
Qed.

(** X12: when no [Kappa] is negative and no layer lies above the 100 km
    ceiling, every increment [Delta_Tau] is non-negative, so the optical
    depth never drops below its initial 0 and never decreases, the step into
    the first layer included. *)
Theorem optical_depth_nonnegative_under_ceiling (table : list Row) (i : nat)
  (e : Contribution) :
  let trace := layer_contributions (radiative_transfer table) in
  (forall row, In row table -> 0 <= Kappa row) ->
  (forall row, In row table -> Altitude row <= atmosphere_top) ->
  nth_error trace i = Some e ->
  0 <= Delta_Tau e /\ 0 <= Tau_Nu e /\ before 0 Tau_Nu trace i <= Tau_Nu e.
Proof.
  open_transfer table stack tr. intros Hk Htop He.
  assert (Hd : 0 <= Delta_Tau e /\ 0 <= Tau_Nu e).
  { apply (slab_trace_depth_nonneg stack) with atmosphere_top 0 i.
    - apply sort_values_desc_top_down.
    - intros l Hl. apply Hk. now apply sort_values_desc_In.
    - intros l Hl. apply Htop, sort_values_desc_In.
      eapply nth_error_In; exact Hl.
    - exact He. }
  destruct Hd as [Hd Ht]. split; [exact Hd | split; [exact Ht|]].
  destruct (slab_trace_row _ _ _ _ _ _ He) as [layer Hl].
  destruct (slab_trace_entry _ _ _ _ _ _ _ Hl He) as (_ & _ & _ & Htau & _).
  fold tr in Htau. lra.
Qed.

Lemma optical_depth_nonnegative_under_ceiling_witness :
  exists e,
    nth_error (layer_contributions (radiative_transfer sample_table)) 0
    = Some e
    /\ 0 <= Delta_Tau e /\ 0 <= Tau_Nu e.
Proof.
  assert (Htr : exists e,
             nth_error (layer_contributions (radiative_transfer sample_table)) 0
             = Some e).
  { unfold radiative_transfer. rewrite sample_table_sorted.
    eexists; reflexivity. }
  destruct Htr as [e He]. exists e. split; [exact He|].
  assert (Hk : forall row, In row sample_table -> 0 <= Kappa row).
  { intros row [<- | [<- | []]]; simpl; lra. }
  assert (Htop : forall row, In row sample_table ->
             Altitude row <= atmosphere_top).
  { intros row [<- | [<- | []]]; unfold atmosphere_top; simpl; lra. }
  destruct (optical_depth_nonnegative_under_ceiling sample_table 0 e Hk Htop He)
    as (Hd & Ht & _).
  split; assumption.
Defined.

End TransferSums.

(** ** Radiative transfer: the radiance is bounded by a black body *)

Section TransferBound.

Import Notebook.

(** Planck radiance grows with temperature. *)
Lemma planck_mono (T1 T2 : R) : 0 < T1 -> T1 <= T2 -> planck T1 <= planck T2.
Proof.
  intros H1 Hle. unfold planck.
  assert (Hh := h_pos). assert (Hk := k_B_pos). assert (Hc := c_pos).
  assert (Hf := frequency_pos).
  assert (HA : 0 < 2 * h * frequency ^ 3 / c ^ 2).
  { apply Rdiv_lt_0_compat; [|now apply pow_lt].
    apply Rmult_lt_0_compat; [lra | now apply pow_lt]. }
  assert (Hhf : 0 < h * frequency) by now apply Rmult_lt_0_compat.
  assert (Hx : forall T, 0 < T -> 0 < exp (h * frequency / (k_B * T)) - 1).
  { intros T HT.
    assert (Hq : 0 < h * frequency / (k_B * T)).
    { apply Rdiv_lt_0_compat; [exact Hhf | now apply Rmult_lt_0_compat]. }
    apply exp_increasing in Hq. rewrite exp_0 in Hq. lra. }
  assert (Hd : exp (h * frequency / (k_B * T2)) - 1
               <= exp (h * frequency / (k_B * T1)) - 1).
  { assert (Harg : h * frequency / (k_B * T2) <= h * frequency / (k_B * T1)).
    { unfold Rdiv. apply Rmult_le_compat_l; [lra|].
      apply Rinv_le_contravar; [now apply Rmult_lt_0_compat | nra]. }
    destruct Harg as [Hlt | Heq].
    - apply exp_increasing in Hlt. lra.
    - rewrite Heq. lra. }
  unfold Rdiv at 1 3. apply Rmult_le_compat_l; [lra|].
  apply Rinv_le_contravar; [apply Hx; lra | exact Hd].
Qed.

(** One layer adds at most what a black body at [Tmax] would add over the
    same drop of the transmission [exp (- tau)]. *)
Lemma entry_bound (ceiling tau I Tmax : R) (l : Row) :
  0 <= Kappa l -> Altitude l <= ceiling ->
  0 < Temperature l <= Tmax -> 0 <= P_radiative l <= 1 ->
  dI_Nu (entry ceiling tau I l)
  <= planck Tmax * (exp (- tau) - exp (- Tau_Nu (entry ceiling tau I l))).
Proof.
  intros Hk Ha [HT HTm] [HP0 HP1].
  unfold entry; cbn [dI_Nu Tau_Nu]. rewrite cos_0_div.
  set (delta := Kappa l * (ceiling - Altitude l)).
  assert (Hd : 0 <= delta) by (apply Rmult_le_pos; lra).
  rewrite Ropp_plus_distr, exp_plus.
  assert (Ha0 := exp_pos (- tau)). assert (Hd0 := exp_pos (- delta)).
  assert (Hd1 : exp (- delta) <= 1) by (apply exp_le_1; lra).
  assert (HB := planck_pos _ HT).
  assert (HBm := planck_mono _ _ HT HTm).
  set (B := planck (Temperature l)) in *. set (Bm := planck Tmax) in *.
  set (a := exp (- tau)) in *. set (d := exp (- delta)) in *.
  set (P := P_radiative l) in *.
  assert (H1 : B * P <= Bm) by nra.
  assert (H2 : B * P * d <= Bm).
  { assert (0 <= B * P) by (apply Rmult_le_pos; lra). nra. }
  assert (H3 : 0 <= a * (1 - d)) by (apply Rmult_le_pos; lra).
  assert (H4 : B * P * d * (a * (1 - d)) <= Bm * (a * (1 - d)))
    by (apply Rmult_le_compat_r; assumption).
  lra.
Qed.

Lemma slab_trace_bound (Tmax : R) (stack : list Row) :
  top_down stack ->
  (forall l, In l stack ->
     0 <= Kappa l /\ 0 < Temperature l <= Tmax /\ 0 <= P_radiative l <= 1) ->
  forall ceiling tau I,
    (forall l, nth_error stack 0 = Some l -> Altitude l <= ceiling) ->
    let tr := slab_trace ceiling tau I stack in
    before I I_Nu tr (length tr)
    <= I + planck Tmax
           * (exp (- tau) - exp (- before tau Tau_Nu tr (length tr))).
Proof.
  unfold top_down.
  induction stack as [|l stack IH]; intros Hs Hc ceiling tau I Htop; cbv zeta.
  - cbn [slab_trace length]. rewrite !before_0. lra.
  - inversion Hs as [|? ? Hs' Hhd]; subst.
    destruct (Hc l) as (Hk & HT & HP); [simpl; auto|].
    assert (Ha : Altitude l <= ceiling) by now apply Htop.
    assert (He := entry_bound ceiling tau I Tmax l Hk Ha HT HP).
    cbn [slab_trace length]. rewrite !before_cons.
    set (e := entry ceiling tau I l) in *.
    assert (Hrec := IH Hs' (fun l0 Hl0 => Hc l0 (or_intror Hl0))
                       (Altitude l) (Tau_Nu e) (I_Nu e)).
    cbv zeta in Hrec.
    assert (HI : I_Nu e = I + dI_Nu e) by reflexivity.
    assert (Hnext : forall l0, nth_error stack 0 = Some l0 ->
              Altitude l0 <= Altitude l).
    { intros l0 Hl0. destruct stack as [|l' stack]; [discriminate|].
      simpl in Hl0. injection Hl0 as <-. now inversion Hhd. }
    specialize (Hrec Hnext). lra.
Qed.

(** X13: when every row has [Kappa >= 0], a temperature in [(0, Tmax]] and
    [P_radiative] in [[0, 1]], and no layer lies above the 100 km ceiling,
    the radiance the cell ends with is at most the Planck radiance at [Tmax]
    times [1 - exp (- tau_nu)]: it never exceeds what a black body at the
    highest temperature emits. *)
Theorem radiance_below_black_body (table : list Row) (Tmax : R) :
  let result := radiative_transfer table in
  0 < Tmax ->
  (forall row, In row table ->
     0 <= Kappa row /\ 0 < Temperature row <= Tmax
     /\ 0 <= P_radiative row <= 1) ->
  (forall row, In row table -> Altitude row <= atmosphere_top) ->
  I_nu result <= planck Tmax * (1 - exp (- tau_nu result))
  /\ I_nu result < planck Tmax.
Proof.
  open_transfer table stack tr. intros HTm Hc Htop.
  assert (Hb := slab_trace_bound Tmax stack (sort_values_desc_top_down table)).
  assert (Hrows : forall l, In l stack ->
            0 <= Kappa l /\ 0 < Temperature l <= Tmax
            /\ 0 <= P_radiative l <= 1).
  { intros l Hl. apply Hc. now apply sort_values_desc_In. }
  assert (Hhead : forall l, nth_error stack 0 = Some l ->
            Altitude l <= atmosphere_top).
  { intros l Hl. apply Htop, sort_values_desc_In.
    eapply nth_error_In; exact Hl. }
  specialize (Hb Hrows atmosphere_top 0 0 Hhead). cbv zeta in Hb.
  fold tr in Hb. rewrite Ropp_0, exp_0 in Hb.
  assert (HB := planck_pos _ HTm).
  assert (He := exp_pos (- before 0 Tau_Nu tr (length tr))).
  split; [lra | nra].
Qed.

Lemma radiance_below_black_body_witness :
  I_nu (radiative_transfer sample_table) < planck 300.
Proof.
  apply (radiance_below_black_body sample_table 300).
  - lra.
  - intros row [<- | [<- | []]]; simpl; lra.
  - intros row [<- | [<- | []]]; unfold atmosphere_top; simpl; lra.
Defined.

End TransferBound.

(** ** Photon flux: errors and scaling *)

Section FluxFacts.

Import Notebook.

Lemma photon_flux_of_nonzero (I_nu_up freq bandwidth omega : R) :
  freq <> 0 ->
  photon_flux_of I_nu_up freq bandwidth omega
  = Some (I_nu_up / (h * freq) * bandwidth * omega).
Proof.
  intros Hf. assert (Hh := h_pos). unfold photon_flux_of, checked_div.
  destruct (Req_dec_T (h * freq) 0) as [Hz | _]; [|reflexivity].
  exfalso. apply Rmult_integral in Hz. destruct Hz; [lra | contradiction].
Qed.

(** X15: with a bandwidth that is a fixed fraction of the band frequency,
    as in the last cell, the flux does not depend on the frequency: it is
    the radiance times the fraction and the solid angle, over Planck's
    constant. *)
Theorem relative_bandwidth_flux (I_nu_up freq fraction omega : R) :
  freq <> 0 ->
  photon_flux_of I_nu_up freq (freq * fraction) omega
  = Some (I_nu_up * fraction * omega / h).
Proof.
  intros Hf. assert (Hh := h_pos).
  rewrite (photon_flux_of_nonzero _ _ _ _ Hf).
  f_equal. field. split; lra.
Qed.

Lemma relative_bandwidth_flux_witness :
  photon_flux 1 = Some (1 * 0.01 * solid_angle / h).
Proof.
  unfold photon_flux, delta_frequency.
  apply (relative_bandwidth_flux 1 frequency 0.01 solid_angle).
  assert (Hf := frequency_pos). lra.
Defined.

End FluxFacts.

(** ** Random-walk escape time *)

(** X16: the escape time of the random walk is quadratic in the distance
    and inverse-quadratic in the mean free path: a distance [k] times as
    long takes [k ^ 2] times as long to cross, a mean free path [k] times as
    long divides the time by [k ^ 2]; and the time is never negative when
    the re-emission time is not. *)
Theorem escape_time_is_quadratic (distance mfp reEmission k : R) :
  0 < mfp -> 0 < k -> 0 <= reEmission ->
  Escape.totalTime (k * distance) mfp reEmission
  = k ^ 2 * Escape.totalTime distance mfp reEmission
  /\ Escape.totalTime distance (k * mfp) reEmission
     = Escape.totalTime distance mfp reEmission / k ^ 2
  /\ 0 <= Escape.totalTime distance mfp reEmission.
Proof.
  intros Hm Hk Ht. unfold Escape.totalTime, Escape.numberOfSteps.
  repeat split.
  - field. lra.
  - field. split; lra.
  - apply Rmult_le_pos; [|exact Ht]. apply pow2_ge_0.
Qed.

Lemma escape_time_is_quadratic_witness :
  Escape.totalTime (2 * Escape.distanceToEscape) Escape.meanFreePath
    Escape.reEmissionTime
  = 2 ^ 2 * Escape.totalTime Escape.distanceToEscape Escape.meanFreePath
              Escape.reEmissionTime.
Proof.
  apply (escape_time_is_quadratic Escape.distanceToEscape Escape.meanFreePath
           Escape.reEmissionTime 2).
  - unfold Escape.meanFreePath. lra.
  - lra.
  - unfold Escape.reEmissionTime. simpl. lra.
Defined.

(** ** Photon mean free path at sea level *)

(** X17: for positive air density, CO2 concentration and cross-section the
    mean free path is positive, it is the inverse of the CO2 density times
    the cross-section, and it is inversely proportional to the
    concentration: [k] times the ppm gives the mean free path divided by
    [k]. *)
Theorem mean_free_path_inverse_in_ppm (n0 ppm sigma k : R) :
  0 < n0 -> 0 < ppm -> 0 < sigma -> 0 < k ->
  0 < SeaLevel.meanFreePath n0 ppm sigma
  /\ SeaLevel.meanFreePath n0 ppm sigma * (SeaLevel.n_CO2 n0 ppm * sigma) = 1
  /\ SeaLevel.meanFreePath n0 (k * ppm) sigma
     = SeaLevel.meanFreePath n0 ppm sigma / k.
Proof.
  intros Hn Hp Hs Hk. unfold SeaLevel.meanFreePath, SeaLevel.n_CO2.
  assert (Hd : 0 < n0 * (ppm / 10 ^ 6) * sigma).
  { apply Rmult_lt_0_compat; [|exact Hs].
    apply Rmult_lt_0_compat; [exact Hn|].
    apply Rdiv_lt_0_compat; [exact Hp | lra]. }
  repeat split.
  - apply Rdiv_lt_0_compat; lra.
  - field. repeat split; lra.
  - field. repeat split; lra.
Qed.

Lemma mean_free_path_inverse_in_ppm_witness :
  SeaLevel.meanFreePath 2.5e25 (2 * 400) 1e-22
  = SeaLevel.meanFreePath 2.5e25 400 1e-22 / 2.
Proof.
  apply (mean_free_path_inverse_in_ppm 2.5e25 400 1e-22 2); lra.
Defined.

(** ** Molecular collisions *)

Section CollisionFacts.

Import Collisions.

Lemma pi_pos : 0 < pi.
Proof. unfold pi. apply PI_RGT_0. Qed.

Lemma sqrt2_pos : 0 < sqrt 2.
Proof. apply sqrt_lt_R0. lra. Qed.

Lemma meanFreePath_pos (k_B T d P : R) :
  0 < k_B -> 0 < T -> 0 < d -> 0 < P -> 0 < meanFreePath k_B T d P.
Proof.
  intros Hk HT Hd HP. unfold meanFreePath.
  assert (Hpi := pi_pos). assert (H2 := sqrt2_pos).
  assert (Hd2 : 0 < d ^ 2) by now apply pow_lt.
  apply Rdiv_lt_0_compat; [now apply Rmult_lt_0_compat|].
  apply Rmult_lt_0_compat; [|exact HP].
  apply Rmult_lt_0_compat; [|exact Hd2].
  apply Rmult_lt_0_compat; assumption.
Qed.

Lemma thermalSpeed_pos (k_B T m : R) :
  0 < k_B -> 0 < T -> 0 < m -> 0 < thermalSpeed k_B T m.
Proof.
  intros Hk HT Hm. unfold thermalSpeed. apply sqrt_lt_R0.
  assert (Hpi := pi_pos).
  apply Rdiv_lt_0_compat; [|now apply Rmult_lt_0_compat].
  apply Rmult_lt_0_compat; [lra | exact HT].
Qed.

Lemma thermalSpeed_quadruple (k_B T m : R) :
  0 < k_B -> 0 < T -> 0 < m ->
  thermalSpeed k_B (4 * T) m = 2 * thermalSpeed k_B T m.
Proof.
  intros Hk HT Hm. unfold thermalSpeed.
  assert (Hpi := pi_pos).
  replace (8 * k_B * (4 * T) / (pi * m))
    with ((2 * 2) * (8 * k_B * T / (pi * m))).
  - rewrite sqrt_mult_alt by lra. rewrite sqrt_square by lra. reflexivity.
  - field. split; lra.
Qed.

(** X18: for positive arguments the number of collisions per second,
    thermal speed over mean free path, is positive, proportional to the
    pressure, and halved when the temperature is multiplied by four (the
    speed doubles, the mean free path quadruples). *)
Theorem collision_rate_scaling (k_B T d P m a : R) :
  0 < k_B -> 0 < T -> 0 < d -> 0 < P -> 0 < m -> 0 < a ->
  0 < collisionsPerSecond k_B T d P m
  /\ collisionsPerSecond k_B T d (a * P) m
     = a * collisionsPerSecond k_B T d P m
  /\ collisionsPerSecond k_B (4 * T) d P m
     = collisionsPerSecond k_B T d P m / 2.
Proof.
  intros Hk HT Hd HP Hm Ha.
  assert (Hl := meanFreePath_pos k_B T d P Hk HT Hd HP).
  assert (Hv := thermalSpeed_pos k_B T m Hk HT Hm).
  assert (Hpi := pi_pos). assert (H2 := sqrt2_pos).
  assert (Hd2 : 0 < d ^ 2) by now apply pow_lt.
  unfold collisionsPerSecond, numberOfCollisions. repeat split.
  - now apply Rdiv_lt_0_compat.
  - unfold meanFreePath in *. set (v := thermalSpeed k_B T m) in *.
    field. repeat split; lra.
  - rewrite thermalSpeed_quadruple by assumption.
    unfold meanFreePath in *. set (v := thermalSpeed k_B T m) in *.
    field. repeat split; lra.
Qed.

Lemma collision_rate_scaling_witness :
  collisionsPerSecond 1.38e-23 (4 * 288) 3.7e-10 101325 4.65e-26
  = collisionsPerSecond 1.38e-23 288 3.7e-10 101325 4.65e-26 / 2.
Proof.
  apply (collision_rate_scaling 1.38e-23 288 3.7e-10 101325 4.65e-26 1); lra.
Defined.

End CollisionFacts.

(** ** Photon mean free path from the ideal-gas density *)

Section AbsorptionFacts.

Import Absorption.

Lemma abs_k_B_pos : 0 < k_B.
Proof. apply k_B_pos. Qed.

(** X19: for positive mole fraction, pressure, temperature and
    cross-section the photon mean free path is [k_B * T] over the product of
    mole fraction, pressure and cross-section: positive, proportional to
    the temperature and inversely proportional to the pressure. *)
Theorem photon_mfp_closed_form (fraction P T sigma : R) :
  0 < fraction -> 0 < P -> 0 < T -> 0 < sigma ->
  photon_mfp fraction P T sigma = k_B * T / (fraction * P * sigma)
  /\ 0 < photon_mfp fraction P T sigma.
Proof.
  intros Hf HP HT Hs. assert (Hk := abs_k_B_pos).
  assert (Heq : photon_mfp fraction P T sigma
                = k_B * T / (fraction * P * sigma)).
  { unfold photon_mfp, n_CO2, n_air. field. repeat split; lra. }
  split; [exact Heq|]. rewrite Heq.
  apply Rdiv_lt_0_compat; [now apply Rmult_lt_0_compat|].
  apply Rmult_lt_0_compat; [now apply Rmult_lt_0_compat | exact Hs].
Qed.

Lemma photon_mfp_closed_form_witness :
  photon_mfp 400e-6 1.01325e5 300 1e-22
  = k_B * 300 / (400e-6 * 1.01325e5 * 1e-22).
Proof.
  apply (photon_mfp_closed_form 400e-6 1.01325e5 300 1e-22); lra.
Defined.

End AbsorptionFacts.
